(** * Point-cloud coordinate tools: a shallow embedding

    The development embeds the numeric core of two scripts of
    [cloudpoint_data_process]:

    - [ply_to_local.py]  ([convert_ply_to_local]): global PLY coordinates
      minus a "global shift", stored as float32;
    - [local_ply_2_ecef_las.py]  ([local_ply_to_ecef_las]): local ENU
      coordinates to ECEF, written to a LAS container, with RGB channels
      normalised to 8 bits.

    Python [float] and [np.float64] values are IEEE-754 binary64 numbers,
    [np.float32] values are binary32 numbers.  Both are modelled with the
    standard library's [spec_float] (sign, mantissa, exponent, signed zeros,
    infinities, NaN) and its round-to-nearest-even operations, so rounding,
    overflow and NaN behave as they do in the scripts.  The exact value of a
    finite float is read off in [Q] by [SF2Q].

    Files are a finite map from paths to contents; the third-party readers
    and writers ([plyfile], [laspy], [json]) are modelled by what they put
    in that map. *)

From Stdlib Require Import ZArith List Bool String QArith Qabs Qround Qpower Lia Lqa.
From Stdlib Require Import Floats.SpecFloat.
From stdpp Require Import base gmap strings.
Import ListNotations.

Open Scope Z_scope.
Open Scope list_scope.

(* ===================================================================== *)
(** * 1. IEEE-754 numbers *)
(* ===================================================================== *)

Module F64.
(** binary64: 53 bits of precision, infinities at exponent 1024. *)
Definition prec : Z := 53.
Definition emax : Z := 1024.

Definition add := SFadd prec emax.
Definition sub := SFsub prec emax.
Definition mul := SFmul prec emax.
Definition div := SFdiv prec emax.
Definition sqrt := SFsqrt prec emax.
Definition neg := SFopp.
Definition leb := SFleb.
Definition ltb := SFltb.
Definition valid := valid_binary prec emax.

(** An integer converted to float64 (exact below 2^53). *)
Definition of_Z (z : Z) : spec_float := binary_normalize prec emax z 0 false.

(** A decimal literal [n / d] of the source text, correctly rounded as
    Python's parser does (numerator and denominator are exact floats). *)
Definition lit (n d : Z) : spec_float := div (of_Z n) (of_Z d).

Definition zero : spec_float := S754_zero false.
End F64.

Module F32.
(** binary32: 24 bits of precision, infinities at exponent 128. *)
Definition prec : Z := 24.
Definition emax : Z := 128.

Definition mul := SFmul prec emax.
Definition valid := valid_binary prec emax.
Definition of_Z (z : Z) : spec_float := binary_normalize prec emax z 0 false.

(** [arr.astype(np.float32)] on a float64 value: round to nearest even,
    overflow to an infinity, NaN and zeros kept. *)
Definition of_f64 (x : spec_float) : spec_float :=
  match x with
  | S754_finite s m e => binary_round prec emax s m e
  | _ => x
  end.

(** [arr.astype(np.float64)] on a float32 value: exact, only the
    representation is renormalised. *)
Definition to_f64 (x : spec_float) : spec_float :=
  match x with
  | S754_finite s m e => binary_round F64.prec F64.emax s m e
  | _ => x
  end.
End F32.

Definition is_nan (x : spec_float) : bool :=
  match x with S754_nan => true | _ => false end.

(** Neither NaN nor an infinity. *)
Definition is_finite (x : spec_float) : bool :=
  match x with
  | S754_zero _ | S754_finite _ _ _ => true
  | _ => false
  end.

Definition is_zero (x : spec_float) : bool :=
  match x with S754_zero _ => true | _ => false end.

(** The exact rational value of a finite float; [0] for the others. *)
Definition SF2Q (x : spec_float) : Q :=
  match x with
  | S754_finite s m e => inject_Z (cond_Zopp s (Zpos m)) * Qpower 2 e
  | _ => 0%Q
  end.

(** The integer part of [m * 2^e] rounded towards minus infinity. *)
Definition Zfloor_scaled (m e : Z) : Z :=
  if 0 <=? e then m * 2 ^ e else m / 2 ^ (- e).

(** [np.floor] on a float64: the largest integral float not above [x];
    zeros, infinities and NaN are returned as they are. *)
Definition np_floor (x : spec_float) : spec_float :=
  match x with
  | S754_finite s m e =>
      if 0 <=? e then x
      else F64.of_Z (Zfloor_scaled (cond_Zopp s (Zpos m)) e)
  | _ => x
  end.

(** C conversion of a float to an integer: truncation towards zero.
    NaN and the infinities have no defined result in C; on x86-64 the
    low byte of the result is 0, which is what is written here. *)
Definition trunc_to_Z (x : spec_float) : Z :=
  match x with
  | S754_finite s m e => cond_Zopp s (Zfloor_scaled (Zpos m) e)
  | _ => 0
  end.

(** [arr.astype(np.uint8)]: 8-bit wrap-around written out. *)
Definition astype_uint8_float (x : spec_float) : Z := trunc_to_Z x mod 256.
Definition astype_uint8_int (z : Z) : Z := z mod 256.

(** [np.maximum] / [np.minimum]: a NaN operand wins. *)
Definition np_maximum (a b : spec_float) : spec_float :=
  if is_nan a then a else if is_nan b then b
  else if SFltb a b then b else a.

Definition np_minimum (a b : spec_float) : spec_float :=
  if is_nan a then a else if is_nan b then b
  else if SFltb b a then b else a.

(** [np.clip(v, lo, hi)] is [minimum(maximum(v, lo), hi)]. *)
Definition np_clip (v lo hi : spec_float) : spec_float :=
  np_minimum (np_maximum v lo) hi.

Definition clip_Z (v lo hi : Z) : Z := Z.min (Z.max v lo) hi.

(** [arr.max()]; a zero-size array has no maximum. *)
Definition np_max (l : list spec_float) : option spec_float :=
  match l with
  | [] => None
  | a :: tl => Some (fold_left np_maximum tl a)
  end.

(** [np.mean]: the sum of the elements from the additive identity,
    divided by the count.  (NumPy adds long arrays pairwise; the order of
    the additions only changes the rounding of the sum, and no statement
    below depends on it.) *)
Definition np_sum (l : list spec_float) : spec_float :=
  fold_left F64.add l F64.zero.

Definition np_mean (l : list spec_float) : spec_float :=
  F64.div (np_sum l) (F64.of_Z (Z.of_nat (length l))).

(* ===================================================================== *)
(** * 2. Point-cloud containers *)
(* ===================================================================== *)

(** Scalar types of PLY properties, as NumPy dtypes. *)
Inductive int_dtype := Int8 | UInt8 | Int16 | UInt16 | Int32 | UInt32.


(** A named field of a structured array: its dtype and its values. *)
Inductive column :=
| ColInt (t : int_dtype) (data : list Z)
| ColF4 (data : list spec_float)
| ColF8 (data : list spec_float).


Definition col_len (c : column) : nat :=
  match c with
  | ColInt _ d => length d
  | ColF4 d | ColF8 d => length d
  end.

(** [np.issubdtype(val.dtype, np.floating)] *)
Definition is_floating (c : column) : bool :=
  match c with ColInt _ _ => false | _ => true end.

(** [col.astype(np.float64)] *)
Definition astype_float64 (c : column) : list spec_float :=
  match c with
  | ColInt _ d => map F64.of_Z d
  | ColF4 d => map F32.to_f64 d
  | ColF8 d => d
  end.

(** A PLY element: its properties in header order, each with its data. *)
Definition ply_element := list (string * column).

Definition prop_names_of (v : ply_element) : list string := map fst v.

(** [vertex[name]] *)
Fixpoint get_field (v : ply_element) (name : string) : option column :=
  match v with
  | [] => None
  | (n, c) :: tl => if String.eqb n name then Some c else get_field tl name
  end.

(** Structured arrays have distinct field names and columns of one length. *)
Definition wf_element (v : ply_element) : Prop :=
  List.NoDup (prop_names_of v) /\
  forall c1 c2, In c1 (map snd v) -> In c2 (map snd v) -> col_len c1 = col_len c2.

Record vec3 := Vec3 { vx : spec_float; vy : spec_float; vz : spec_float }.

(** The JSON side-car of [convert_ply_to_local]. *)
Record origin_dict := OriginDict {
  shift_global : vec3;
  od_shift_mode : string;
  od_manual_shift : option (list spec_float);
  od_auto_base : spec_float;
  od_input_ply : string;
  od_output_ply : string;
  od_note : string
}.

(** What [laspy] is given for the output file. *)
Record las_data := LasData {
  las_version : string;
  las_point_format : Z;
  las_system_identifier : string;
  las_x : list spec_float;
  las_y : list spec_float;
  las_z : list spec_float;
  las_red : option (list Z);
  las_green : option (list Z);
  las_blue : option (list Z)
}.

Inductive file :=
| PlyFile (text : bool) (elements : list (string * ply_element))
| JsonFile (content : origin_dict)
| LasFile (content : las_data)
| OtherFile.

Definition filesystem := gmap string file.

(** Exceptions the two scripts can end with. *)
Inductive exn :=
| ValueError_missing_fields (missing : gset string)
    (* "PLY is missing required coordinate fields: {missing}" *)
| ValueError_no_points        (* "Input PLY contains no points." *)
| ValueError_auto_base        (* "--auto-base must be positive" *)
| ValueError_manual_shift     (* "manual_shift must contain 3 values, ..." *)
| ValueError_shift_mode       (* "shift_mode must be 'auto', 'manual', or 'first_point'" *)
| ValueError_no_field (name : string)   (* numpy: "no field of name ..." *)
| ValueError_zero_size        (* numpy: "zero-size array to reduction operation" *)
| KeyError_element (name : string)      (* plyfile: no such element *)
| IndexError
| ReadError (path : string).  (* the reader could not open or parse the file *)

(** The error taxonomy of the specification. *)
Inductive error_kind :=
| MissingField | EmptyInput | InvalidParameter | ShapeError | IOFailure.

Definition classify (e : exn) : error_kind :=
  match e with
  | ValueError_missing_fields _ => MissingField
  | ValueError_no_points => EmptyInput
  | ValueError_auto_base | ValueError_manual_shift | ValueError_shift_mode =>
      InvalidParameter
  | ValueError_no_field _ | ValueError_zero_size | IndexError => ShapeError
  | KeyError_element _ | ReadError _ => IOFailure
  end.

Inductive result (A : Type) :=
| Ok (a : A)
| Raise (e : exn).
Arguments Ok {A} a.
Arguments Raise {A} e.

#[global] Instance result_bind : MBind result :=
  fun A B k r =>
    match r with
    | Ok a => k a
    | Raise e => Raise e
    end.

Definition raised {A} (r : result A) : bool :=
  match r with Raise _ => true | Ok _ => false end.

(** [PlyData.read(path)] and [plydata[name]] *)
Definition PlyData_read (fs : filesystem) (path : string)
  : result (list (string * ply_element)) :=
  match fs !! path with
  | Some (PlyFile _ elements) => Ok elements
  | _ => Raise (ReadError path)
  end.

Fixpoint get_element (elements : list (string * ply_element)) (name : string)
  : result ply_element :=
  match elements with
  | [] => Raise (KeyError_element name)
  | (n, e) :: tl => if String.eqb n name then Ok e else get_element tl name
  end.

(** [vertex[name].astype(np.float64)] *)
Definition field_float64 (v : ply_element) (name : string)
  : result (list spec_float) :=
  match get_field v name with
  | Some c => Ok (astype_float64 c)
  | None => Raise (ValueError_no_field name)
  end.

(* ===================================================================== *)
(** * 3. ply_to_local.py *)
(* ===================================================================== *)

(** [np.vstack((x, y, z)).T]: one row per point. *)
Fixpoint vstack_T (x y z : list spec_float) : list vec3 :=
  match x, y, z with
  | a :: x', b :: y', c :: z' => Vec3 a b c :: vstack_T x' y' z'
  | _, _, _ => []
  end.

(** The nested helper of the [auto] branch. *)
Definition _floor_base (arr : list spec_float) (base : spec_float)
  : result spec_float :=
  if F64.leb base F64.zero then Raise ValueError_auto_base
  else Ok (F64.mul (np_floor (F64.div (np_mean arr) base)) base).

(** [np.array(manual_shift, dtype=np.float64)] for a sequence of length 3 *)
Definition array3 (l : list spec_float) : vec3 :=
  Vec3 (nth 0 l S754_nan) (nth 1 l S754_nan) (nth 2 l S754_nan).

(** The [if shift_mode == ...] cascade (lines 78-101). *)
Definition compute_shift (x y z : list spec_float) (points_global : list vec3)
    (shift_mode : string) (manual_shift : option (list spec_float))
    (auto_base : spec_float) : result vec3 :=
  if String.eqb shift_mode "auto" then
    shift_x ← _floor_base x auto_base;
    shift_y ← _floor_base y auto_base;
    shift_z ← _floor_base z auto_base;
    Ok (Vec3 shift_x shift_y shift_z)
  else if String.eqb shift_mode "manual" then
    match manual_shift with
    | None => Raise ValueError_manual_shift
    | Some l =>
        if negb (Nat.eqb (length l) 3) then Raise ValueError_manual_shift
        else Ok (array3 l)
    end
  else if String.eqb shift_mode "first_point" then
    match points_global with
    | p :: _ => Ok p
    | [] => Raise IndexError
    end
  else Raise ValueError_shift_mode.

(** [points_global - shift], broadcast over the rows, in float64. *)
Definition sub_shift (shift p : vec3) : vec3 :=
  Vec3 (F64.sub (vx p) (vx shift)) (F64.sub (vy p) (vy shift))
       (F64.sub (vz p) (vz shift)).


Definition required : gset string := {[ "x"%string; "y"%string; "z"%string ]}.

(** The output structured array: x, y, z as float32 columns holding the
    local coordinates, every other field assigned from the input. *)
Definition build_vertex_array (vertex : ply_element) (points_local : list vec3)
  : ply_element :=
  map (fun name =>
         if String.eqb name "x" then
           (name, ColF4 (map (fun p => F32.of_f64 (vx p)) points_local))
         else if String.eqb name "y" then
           (name, ColF4 (map (fun p => F32.of_f64 (vy p)) points_local))
         else if String.eqb name "z" then
           (name, ColF4 (map (fun p => F32.of_f64 (vz p)) points_local))
         else
           (name, match get_field vertex name with
                  | Some c => c
                  | None => ColF8 []
                  end))
      (prop_names_of vertex).

(** Everything [convert_ply_to_local] does between reading the vertex
    element and writing the output (lines 54-119). *)
Definition localize (vertex : ply_element) (shift_mode : string)
    (manual_shift : option (list spec_float)) (auto_base : spec_float)
  : result (ply_element * vec3 * list vec3) :=
  let prop_names := prop_names_of vertex in
  if negb (bool_decide (required ⊆ list_to_set prop_names)) then
    Raise (ValueError_missing_fields (required ∖ list_to_set prop_names))
  else
    x ← field_float64 vertex "x";
    y ← field_float64 vertex "y";
    z ← field_float64 vertex "z";
    let points_global := vstack_T x y z in
    if Nat.eqb (length points_global) 0 then Raise ValueError_no_points
    else
      shift ← compute_shift x y z points_global shift_mode manual_shift
                  auto_base;
      let points_local := map (sub_shift shift) points_global in
      Ok (build_vertex_array vertex points_local, shift, points_local).

Section OsPath.
(** [os.path] functions used on the paths; their results depend on the
    platform and the working directory. *)
Variable abspath : string -> string.
Variable splitext_root : string -> string.   (* os.path.splitext(p)[0] *)
Variable path_join : string -> string -> string.

Definition convert_ply_to_local (input_ply output_ply shift_mode : string)
    (manual_shift : option (list spec_float)) (save_origin_json : bool)
    (auto_base : spec_float) (fs : filesystem)
  : result vec3 * filesystem :=
  match (plydata ← PlyData_read fs input_ply;
         vertex ← get_element plydata "vertex";
         localize vertex shift_mode manual_shift auto_base) with
  | Raise e => (Raise e, fs)
  | Ok (vertex_array, shift, _) =>
      let fs1 :=
        <[ output_ply := PlyFile false [("vertex"%string, vertex_array)] ]> fs in
      let fs2 :=
        if save_origin_json then
          <[ (splitext_root output_ply ++ "_origin.json")%string :=
               JsonFile
                 {| shift_global := shift;
                    od_shift_mode := shift_mode;
                    od_manual_shift :=
                      if String.eqb shift_mode "manual" then manual_shift
                      else None;
                    od_auto_base := auto_base;
                    od_input_ply := abspath input_ply;
                    od_output_ply := abspath output_ply;
                    od_note :=
                      "Restoration formula: global = local + shift_global" |} ]>
            fs1
        else fs1 in
      (Ok shift, fs2)
  end.
End OsPath.

(* ===================================================================== *)
(** * 4. local_ply_2_ecef_las.py *)
(* ===================================================================== *)

(** Row-major matrices as lists of rows. *)
Definition matrix := list (list spec_float).

(** The dot product of a row and a column, accumulated left to right. *)
Definition dot (r c : list spec_float) : spec_float :=
  match combine r c with
  | [] => F64.zero
  | (a, b) :: tl =>
      fold_left (fun acc ab => F64.add acc (F64.mul (fst ab) (snd ab))) tl
                (F64.mul a b)
  end.

Definition column_of (j : nat) (M : matrix) : list spec_float :=
  map (fun row => nth j row S754_nan) M.

Definition ncols (M : matrix) : nat :=
  match M with
  | [] => 0%nat
  | row :: _ => length row
  end.

(** [A @ B] *)
Definition matmul (A B : matrix) : matrix :=
  map (fun arow => map (fun j => dot arow (column_of j B)) (seq 0 (ncols B))) A.

(** [v.reshape(3, 1) + M]: entry [i] of [v] is added along row [i]. *)
Fixpoint add_column_vector (v : list spec_float) (M : matrix) : matrix :=
  match v, M with
  | a :: v', row :: M' => map (F64.add a) row :: add_column_vector v' M'
  | _, _ => []
  end.

(** The RGB normaliser of lines 89-92 for one float dtype, given that
    dtype's multiplication, its constants 0 and 255, and the value of the
    maximum in float64 for the comparison with 1.01. *)
Definition normalize_float (fmul : spec_float -> spec_float -> spec_float)
    (c0 c255 : spec_float) (widen : spec_float -> spec_float)
    (val : list spec_float) : result (list Z) :=
  match np_max val with
  | None => Raise ValueError_zero_size
  | Some vmax =>
      let scaled :=
        if F64.leb (widen vmax) (F64.lit 101 100)
        then map (fun v => fmul v c255) val
        else val in
      Ok (map (fun v => astype_uint8_float (np_clip v c0 c255)) scaled)
  end.

Definition normalize_channel (val : column) : result (list Z) :=
  match val with
  | ColF4 d =>
      normalize_float F32.mul (F32.of_Z 0) (F32.of_Z 255) F32.to_f64 d
  | ColF8 d =>
      normalize_float F64.mul (F64.of_Z 0) (F64.of_Z 255) (fun v => v) d
  | ColInt _ d =>
      Ok (map (fun v => astype_uint8_int (clip_Z v 0 255)) d)
  end.

(** [arr.min()] / [arr.max()] inside the progress message: only whether
    the reduction is defined matters. *)
Definition check_reducible (l : list spec_float) : result unit :=
  match l with
  | [] => Raise ValueError_zero_size
  | _ :: _ => Ok tt
  end.

Module WGS84.
(** Semi-major axis [6378137.0] and first eccentricity squared
    [6.69437999014e-3], as the float64 values of the literals. *)
Definition a : spec_float := F64.lit 63781370 10.
Definition e2 : spec_float := F64.lit 669437999014 100000000000000.
End WGS84.

(** The float64 nearest to pi, and [np.radians(x) = x * (pi / 180)]. *)
Definition np_pi : spec_float := S754_finite false 7074237752028440 (-51).

Definition np_radians (x : spec_float) : spec_float :=
  F64.mul x (F64.div np_pi (F64.of_Z 180)).

Definition one : spec_float := F64.of_Z 1.

Section LocalPlyToEcefLas.
(** The C library's sine and cosine, reached through [np.sin], [np.cos]. *)
Variable np_sin np_cos : spec_float -> spec_float.
Variable path_join : string -> string -> string.

Record trig := Trig {
  sin_lat : spec_float; cos_lat : spec_float;
  sin_lon : spec_float; cos_lon : spec_float
}.

Definition origin_trig (origin_lon origin_lat : spec_float) : trig :=
  let lat0 := np_radians origin_lat in
  let lon0 := np_radians origin_lon in
  {| sin_lat := np_sin lat0; cos_lat := np_cos lat0;
     sin_lon := np_sin lon0; cos_lon := np_cos lon0 |}.

(** Lines 46-50. *)
Definition origin_ecef (t : trig) (origin_height : spec_float)
  : list spec_float :=
  let N0 :=
    F64.div WGS84.a
      (F64.sqrt (F64.sub one (F64.mul WGS84.e2 (F64.mul (sin_lat t) (sin_lat t))))) in
  let x0 := F64.mul (F64.mul (F64.add N0 origin_height) (cos_lat t)) (cos_lon t) in
  let y0 := F64.mul (F64.mul (F64.add N0 origin_height) (cos_lat t)) (sin_lon t) in
  let z0 :=
    F64.mul (F64.add (F64.mul N0 (F64.sub one WGS84.e2)) origin_height) (sin_lat t) in
  [x0; y0; z0].

(** Lines 57-61. *)
Definition rotation (t : trig) : matrix :=
  [ [ F64.neg (sin_lon t); cos_lon t; F64.zero ];
    [ F64.mul (F64.neg (sin_lat t)) (cos_lon t);
      F64.mul (F64.neg (sin_lat t)) (sin_lon t);
      cos_lat t ];
    [ F64.mul (cos_lat t) (cos_lon t);
      F64.mul (cos_lat t) (sin_lon t);
      sin_lat t ] ].

(** Lines 63-64: [origin_ecef.reshape(3, 1) + R @ np.vstack((east, north, up))]. *)
Definition enu_to_ecef (origin_lon origin_lat origin_height : spec_float)
    (east north up : list spec_float) : matrix :=
  let t := origin_trig origin_lon origin_lat in
  let local_points := [east; north; up] in
  add_column_vector (origin_ecef t origin_height)
                    (matmul (rotation t) local_points).

(** One pass of the loop over ["red"; "green"; "blue"]. *)
Definition rgb_channel (vertex : ply_element) (preserve_rgb : bool)
    (color : string) : result (option (list Z)) :=
  if preserve_rgb then
    match get_field vertex color with
    | Some val => v ← normalize_channel val; Ok (Some v)
    | None => Ok None
    end
  else Ok None.

(** Everything between reading the vertex element and [las.write]. *)
Definition ecef_las_of_vertex (vertex : ply_element)
    (origin_lon origin_lat origin_height : spec_float) (preserve_rgb : bool)
  : result las_data :=
  east ← field_float64 vertex "x";
  north ← field_float64 vertex "y";
  up ← field_float64 vertex "z";
  match enu_to_ecef origin_lon origin_lat origin_height east north up with
  | [x_ecef; y_ecef; z_ecef] =>
      _ ← check_reducible x_ecef;
      red ← rgb_channel vertex preserve_rgb "red";
      green ← rgb_channel vertex preserve_rgb "green";
      blue ← rgb_channel vertex preserve_rgb "blue";
      Ok {| las_version := "1.4";
            las_point_format := 3;
            las_system_identifier := "ECEF (Earth-Centered, Earth-Fixed)";
            las_x := x_ecef; las_y := y_ecef; las_z := z_ecef;
            las_red := red; las_green := green; las_blue := blue |}
  | _ => Raise IndexError
  end.

End LocalPlyToEcefLas.

(** Two floats that denote the same datum: identical, or zeros of either
    sign. *)
Definition same_float (x y : spec_float) : Prop :=
  x = y \/ (is_zero x = true /\ is_zero y = true).

(* ===================================================================== *)
(** * 5. Sample inputs *)
(* ===================================================================== *)

Module Sample.
(** One point at (1.7, 25.0, 0.0) with a colour channel. *)
Definition vertex1 : ply_element :=
  [ ("x"%string, ColF8 [F64.lit 17 10]);
    ("y"%string, ColF8 [F64.lit 25 1]);
    ("red"%string, ColInt UInt8 [200]);
    ("z"%string, ColF8 [F64.zero]) ].

(** The same header with no points. *)
Definition vertex0 : ply_element :=
  [ ("x"%string, ColF8 []); ("y"%string, ColF8 []);
    ("red"%string, ColInt UInt8 []); ("z"%string, ColF8 []) ].

(** A point cloud without a [z] property. *)
Definition vertex_xy : ply_element :=
  [ ("x"%string, ColF8 [F64.lit 17 10]);
    ("y"%string, ColF8 [F64.lit 25 1]) ].

Definition fs_with (v : ply_element) : filesystem :=
  {[ "in.ply"%string := PlyFile true [("vertex"%string, v)] ]}.

Definition base1000 : spec_float := F64.of_Z 1000.
End Sample.

Module Spec.
(** The converter as the specification words it (section 4.1): the origin
    by the WGS84 formula, the rotation with the East, North and Up axes as
    its rows, and one point at a time. *)
Section PerPoint.
Variable np_sin np_cos : spec_float -> spec_float.
Variable lon lat h : spec_float.

Definition sinlat := np_sin (np_radians lat).
Definition coslat := np_cos (np_radians lat).
Definition sinlon := np_sin (np_radians lon).
Definition coslon := np_cos (np_radians lon).

Definition Nrad : spec_float :=
  F64.div WGS84.a
    (F64.sqrt (F64.sub one (F64.mul WGS84.e2 (F64.mul sinlat sinlat)))).

Definition x0 := F64.mul (F64.mul (F64.add Nrad h) coslat) coslon.
Definition y0 := F64.mul (F64.mul (F64.add Nrad h) coslat) sinlon.
Definition z0 := F64.mul (F64.add (F64.mul Nrad (F64.sub one WGS84.e2)) h) sinlat.

Definition east_axis := Vec3 (F64.neg sinlon) coslon F64.zero.
Definition north_axis :=
  Vec3 (F64.mul (F64.neg sinlat) coslon) (F64.mul (F64.neg sinlat) sinlon) coslat.
Definition up_axis :=
  Vec3 (F64.mul coslat coslon) (F64.mul coslat sinlon) sinlat.

(** One row of [R] applied to the point [(east, north, up)]. *)
Definition row_times (r p : vec3) : spec_float :=
  F64.add (F64.add (F64.mul (vx r) (vx p)) (F64.mul (vy r) (vy p)))
          (F64.mul (vz r) (vz p)).

Definition ecef_x (p : vec3) := F64.add x0 (row_times east_axis p).
Definition ecef_y (p : vec3) := F64.add y0 (row_times north_axis p).
Definition ecef_z (p : vec3) := F64.add z0 (row_times up_axis p).

End PerPoint.
End Spec.

Module Scenario.
(** The end-to-end scenario of the specification: origin
    (lon 116.4075, lat 39.9040, height 1.0).  The C library is only asked
    for the sine and cosine of these two angles; its answers are tabulated. *)
Definition lon : spec_float := F64.lit 1164075 10000.
Definition lat : spec_float := F64.lit 39904 1000.
Definition height : spec_float := F64.of_Z 1.

Definition libm_sin (x : spec_float) : spec_float :=
  if SFeqb x (np_radians lat) then S754_finite false 5778147039003749 (-53)
  else if SFeqb x (np_radians lon) then S754_finite false 8067329987677349 (-53)
  else S754_nan.

Definition libm_cos (x : spec_float) : spec_float :=
  if SFeqb x (np_radians lat) then S754_finite false 6909606009770665 (-53)
  else if SFeqb x (np_radians lon) then S754_finite true 8011947399859404 (-54)
  else S754_nan.
End Scenario.

(** [len(vertex)]: the number of records of the structured array. *)
Definition num_rows (v : ply_element) : nat :=
  match v with
  | [] => 0%nat
  | (_, c) :: _ => col_len c
  end.

(** The element carries the three coordinate fields. *)
Definition has_xyz (v : ply_element) : bool :=
  match get_field v "x", get_field v "y", get_field v "z" with
  | Some _, Some _, Some _ => true
  | _, _, _ => false
  end.

Module ScenarioInput.
(** A PLY vertex element holding the single ENU point (0, 0, 0). *)
Definition vertex : ply_element :=
  [ ("x"%string, ColF4 [F64.zero]); ("y"%string, ColF4 [F64.zero]);
    ("z"%string, ColF4 [F64.zero]) ].
End ScenarioInput.

(** The column the output array holds under [name], given the local
    points: a float32 column for a coordinate, the input's own column for
    any other field. *)
Definition stored_column (vertex : ply_element) (points_local : list vec3)
    (name : string) : column :=
  if String.eqb name "x" then
    ColF4 (map (fun p => F32.of_f64 (vx p)) points_local)
  else if String.eqb name "y" then
    ColF4 (map (fun p => F32.of_f64 (vy p)) points_local)
  else if String.eqb name "z" then
    ColF4 (map (fun p => F32.of_f64 (vz p)) points_local)
  else match get_field vertex name with Some c => c | None => ColF8 [] end.

Definition vec3_finite (p : vec3) : bool :=
  is_finite (vx p) && is_finite (vy p) && is_finite (vz p).

Definition vec3_zero : vec3 := Vec3 F64.zero F64.zero F64.zero.

Module SampleNaN.
(** One point whose x coordinate is NaN, as a binary PLY can hold. *)
Definition vertex : ply_element :=
  [ ("x"%string, ColF8 [S754_nan]); ("y"%string, ColF8 [F64.lit 25 1]);
    ("z"%string, ColF8 [F64.zero]) ].
End SampleNaN.

(** ** Rounding: auxiliary notions *)

(** The flags of a shift record place a remainder [rem] against the half
    of the window [W]. *)
Definition loc_window (W rem : Z) (r s : bool) : Prop :=
  match r, s with
  | false, false => rem = 0
  | false, true => 0 < 2 * rem < W
  | true, false => 2 * rem = W
  | true, true => W < 2 * rem
  end.

(** The record [mrs] stands for the integer [V] in units of [W]: quotient
    in [shr_m], remainder described by the flags. *)
Definition shr_window (V W : Z) (mrs : shr_record) : Prop :=
  0 <= shr_m mrs /\
  exists rem, V = shr_m mrs * W + rem /\ 0 <= rem < W /\
              loc_window W rem (shr_r mrs) (shr_s mrs).

(** The outcome of [binary_round_aux] for a mantissa [m''] and exponent [e'']. *)
Definition finish (prec emax : Z) (s : bool) (m'' e'' : Z) : spec_float :=
  match m'' with
  | Z0 => S754_zero s
  | Zpos p => if e'' <=? emax - prec then S754_finite s p e'' else S754_infinity s
  | Zneg _ => S754_nan
  end.

(** Value of a scaled integer. *)
Definition Zval (m e : Z) : Q := (inject_Z m * 2 ^ e)%Q.

Definition Qsign (s : bool) : Q := if s then (-1)%Q else 1%Q.

(** A finite float whose mantissa has at most [prec] bits. *)
Definition mantissa_fits (prec : Z) (x : spec_float) : Prop :=
  match x with
  | S754_finite _ m _ => Zpos m < 2 ^ prec
  | _ => True
  end.

(** The stored local coordinate and the bound on what adding the shift
    back can miss. *)
Definition stored_local (shift g : spec_float) : spec_float :=
  F32.of_f64 (F64.sub g shift).

Definition storage_tolerance (shift g : spec_float) : Q :=
  (Qabs (SF2Q (F64.sub g shift)) * 2 ^ (- 24) + 2 ^ (- 150) +
   (Qabs (SF2Q g - SF2Q shift) * 2 ^ (- 53) + 2 ^ (- 1075)))%Q.



Module SampleAuto.
(** x = 1.7 with [--auto-base 0.1], and x = 407123.456 with the default
    base. *)
Definition x17 : spec_float := F64.lit 17 10.
Definition x407 : spec_float := F64.lit 407123456 1000.
End SampleAuto.

Module SampleHuge.
(** One point at x = 1e39, beyond the float32 range. *)
Definition vertex : ply_element :=
  [ ("x"%string, ColF8 [F64.lit 1000000000000000000000000000000000000000 1]);
    ("y"%string, ColF8 [F64.zero]); ("z"%string, ColF8 [F64.zero]) ].
End SampleHuge.

(** ** The command line of ply_to_local.py *)

(** The [argparse.Namespace] that [parse_args] returns: [--output] and
    [--manual-shift] are [None] when absent. *)
Record Namespace := MkNamespace {
  args_input : string;
  args_output : option string;
  args_mode : string;
  args_manual_shift : option (list spec_float);
  args_auto_base : spec_float;
  args_no_json : bool;
  args_force : bool
}.

(** [s or "."] on a string. *)
Definition or_dot (s : string) : string :=
  if String.eqb s "" then "."%string else s.

(** [os.path.exists]: the path names an entry of the file system. *)
Definition path_exists (fs : filesystem) (p : string) : bool :=
  bool_decide (is_Some (fs !! p)).

(** [tuple(args.manual_shift) if args.manual_shift else None] *)
Definition manual_shift_arg (ms : option (list spec_float))
  : option (list spec_float) :=
  match ms with
  | Some ((_ :: _) as l) => Some l
  | _ => None
  end.

(** The side-car path of line 130. *)
Definition origin_json_path (splitext_root : string -> string)
    (output_ply : string) : string :=
  (splitext_root output_ply ++ "_origin.json")%string.


Section PlyToLocalMain.
Variable abspath splitext_root basename dirname : string -> string.
Variable path_join : string -> string -> string.

(** Lines 147-150. *)
Definition _derive_default_output (input_path : string) : string :=
  let base := splitext_root (basename input_path) in
  path_join (or_dot (dirname input_path)) (base ++ "_local.ply")%string.

(** [args.output or _derive_default_output(input_ply)] *)
Definition output_of (args : Namespace) : string :=
  match args_output args with
  | Some o =>
      if String.eqb o "" then _derive_default_output (args_input args) else o
  | None => _derive_default_output (args_input args)
  end.

(** [main] after [parse_args] (lines 185-207): the exit status and the
    file system it leaves. *)
Definition main (args : Namespace) (fs : filesystem) : Z * filesystem :=
  let input_ply := args_input args in
  let output_ply := output_of args in
  if negb (args_force args) && path_exists fs output_ply then (2, fs)
  else
    match convert_ply_to_local abspath splitext_root input_ply output_ply
            (args_mode args) (manual_shift_arg (args_manual_shift args))
            (negb (args_no_json args)) (args_auto_base args) fs with
    | (Ok _, fs') => (0, fs')
    | (Raise _, fs') => (1, fs')
    end.
End PlyToLocalMain.

(** ** The command line of local_ply_2_ecef_las.py *)


Section EcefMain.
Variable np_sin np_cos : spec_float -> spec_float.
Variable dirname : string -> string.
Variable path_join : string -> string -> string.


End EcefMain.

(** ** The two viewers *)

(** One value of a structured array. *)
Inductive cell :=
| CellInt (t : int_dtype) (v : Z)
| CellF4 (v : spec_float)
| CellF8 (v : spec_float).

(** What the viewers print, line by line. *)
Inductive line :=
| Usage
| AttributesHeading
| AttributeName (name : string)
| PointsHeading
| Point (fields : list (string * cell)).

(** How a script ends. *)
Inductive outcome :=
| Finished
| SysExit (code : Z)
| Uncaught (e : exn).

(** [col[i]] for [0 <= i]; out of bounds is numpy's IndexError. *)
Definition col_index (c : column) (i : nat) : result cell :=
  match c with
  | ColInt t d =>
      match nth_error d i with Some v => Ok (CellInt t v) | None => Raise IndexError end
  | ColF4 d =>
      match nth_error d i with Some v => Ok (CellF4 v) | None => Raise IndexError end
  | ColF8 d =>
      match nth_error d i with Some v => Ok (CellF8 v) | None => Raise IndexError end
  end.

(** [{name: arr[name][i] for name in names}], built name by name. *)
Fixpoint point_dict (arr : ply_element) (names : list string) (i : nat)
  : result (list (string * cell)) :=
  match names with
  | [] => Ok []
  | name :: tl =>
      match get_field arr name with
      | None => Raise (ValueError_no_field name)
      | Some c =>
          v ← col_index c i;
          rest ← point_dict arr tl i;
          Ok ((name, v) :: rest)
      end
  end.

(** [for i in indices: print(point_dict)]: the lines printed before the
    loop ends or an exception leaves it. *)
Fixpoint print_points (arr : ply_element) (indices : list nat)
  : list line * outcome :=
  match indices with
  | [] => ([], Finished)
  | i :: tl =>
      match point_dict arr (prop_names_of arr) i with
      | Raise e => ([], Uncaught e)
      | Ok d =>
          let (ls, o) := print_points arr tl in (Point d :: ls, o)
      end
  end.

(** tool_look_ply.py, the whole script; [argv] is [sys.argv]. *)
Definition tool_look_ply (argv : list string) (fs : filesystem)
  : list line * outcome :=
  if (length argv <? 2)%nat then ([Usage], SysExit 1)
  else
    match (plydata ← PlyData_read fs (nth 1 argv ""%string);
           get_element plydata "vertex") with
    | Raise e => ([], Uncaught e)
    | Ok vertex =>
        let heading :=
          AttributesHeading :: map AttributeName (prop_names_of vertex)
            ++ [PointsHeading] in
        let (pts, o) := print_points vertex (seq 0 5) in
        (heading ++ pts, o)
    end.

(** tool_look_las.py, lines 29-39: [n = min(args.limit, len(pts))] and
    the loop over [range(n)], for point records with scalar fields. *)
Definition las_print_points (limit : Z) (pts : ply_element)
  : list line * outcome :=
  let n := Z.min limit (Z.of_nat (num_rows pts)) in
  print_points pts (seq 0 (Z.to_nat n)).

(** What a printed point says of record [i]. *)
Definition shows_record (arr : ply_element) (i : nat)
    (d : list (string * cell)) : Prop :=
  map fst d = prop_names_of arr /\
  forall name v, In (name, v) d ->
    exists c, get_field arr name = Some c /\ col_index c i = Ok v.

(* ===================================================================== *)
(** * 6. Lookup and shape lemmas *)
(* ===================================================================== *)

Lemma get_field_Some_name (v : ply_element) name c :
  get_field v name = Some c -> In name (prop_names_of v).
Proof.
  induction v as [|[n c'] tl IH]; simpl; [discriminate|].
  destruct (String.eqb_spec n name); intros H; [left; assumption|right; auto].
Qed.

Lemma get_field_None_name (v : ply_element) name :
  get_field v name = None <-> ~ In name (prop_names_of v).
Proof.
  induction v as [|[n c'] tl IH]; simpl; [tauto|].
  destruct (String.eqb_spec n name); split; intros H; try discriminate.
  - exfalso; apply H; left; assumption.
  - intros [?|?]; [contradiction|]. apply IH in H. contradiction.
  - apply IH. intros ?; apply H; right; assumption.
Qed.

Lemma get_field_In (v : ply_element) name c :
  get_field v name = Some c -> In c (map snd v).
Proof.
  induction v as [|[n c'] tl IH]; simpl; [discriminate|].
  destruct (String.eqb_spec n name); intros H; [left; congruence|right; auto].
Qed.

Lemma astype_float64_length c : length (astype_float64 c) = col_len c.
Proof. destruct c; simpl; rewrite ?length_map; reflexivity. Qed.

Lemma required_subseteq (names : list string) :
  required ⊆ (list_to_set names : gset string) <->
  In "x"%string names /\ In "y"%string names /\ In "z"%string names.
Proof.
  unfold required. rewrite <- !list_elem_of_In.
  rewrite !union_subseteq, !singleton_subseteq_l, !elem_of_list_to_set.
  tauto.
Qed.

Lemma missing_spec (names : list string) (n : string) :
  n ∈ required ∖ (list_to_set names : gset string) <->
  (n = "x" \/ n = "y" \/ n = "z")%string /\ ~ In n names.
Proof.
  unfold required. rewrite <- list_elem_of_In.
  rewrite elem_of_difference, !elem_of_union, !elem_of_singleton,
    elem_of_list_to_set.
  tauto.
Qed.

Lemma field_float64_present v name :
  In name (prop_names_of v) ->
  exists c, get_field v name = Some c /\
            field_float64 v name = Ok (astype_float64 c).
Proof.
  intros H. unfold field_float64.
  destruct (get_field v name) as [c|] eqn:E.
  - eauto.
  - apply get_field_None_name in E. contradiction.
Qed.

Lemma vstack_T_length x y z :
  length y = length x -> length z = length x ->
  length (vstack_T x y z) = length x.
Proof.
  revert y z; induction x as [|a x IH]; intros [|b y] [|c z]; simpl;
    intros; try discriminate; try reflexivity.
  f_equal. apply IH; lia.
Qed.

(* ===================================================================== *)
(** * 7. The shift selector: errors *)
(* ===================================================================== *)

Lemma localize_missing vertex mode ms b :
  ~ required ⊆ (list_to_set (prop_names_of vertex) : gset string) ->
  localize vertex mode ms b =
  Raise (ValueError_missing_fields
           (required ∖ list_to_set (prop_names_of vertex))).
Proof.
  intros H. unfold localize.
  rewrite bool_decide_eq_false_2 by assumption. reflexivity.
Qed.

Lemma localize_empty vertex mode ms b :
  required ⊆ (list_to_set (prop_names_of vertex) : gset string) ->
  Forall (fun c => col_len c = 0%nat) (map snd vertex) ->
  localize vertex mode ms b = Raise ValueError_no_points.
Proof.
  intros H H0. unfold localize.
  rewrite bool_decide_eq_true_2 by assumption. simpl negb. cbv iota.
  apply required_subseteq in H as (Hx & Hy & Hz).
  destruct (field_float64_present _ _ Hx) as (cx & Gx & ->).
  destruct (field_float64_present _ _ Hy) as (cy & Gy & ->).
  destruct (field_float64_present _ _ Hz) as (cz & Gz & ->).
  cbn.
  rewrite List.Forall_forall in H0.
  assert (Lx : length (astype_float64 cx) = 0%nat)
    by (rewrite astype_float64_length; apply H0; eapply get_field_In; eauto).
  destruct (astype_float64 cx); [|discriminate]. reflexivity.
Qed.

(** C6: when the vertex element has the fields x, y, z but no points,
    [convert_ply_to_local] ends with the "no points" error (EmptyInput);
    when any of x, y, z is absent it ends with the "missing fields" error
    (MissingField) carrying exactly the absent coordinate names; in both
    cases the file system is left as it was, so no output file exists. *)
Theorem empty_or_incomplete_input_rejected
    (abspath splitext_root : string -> string) (fs : filesystem)
    (input_ply output_ply shift_mode : string) text elements
    (vertex : ply_element) manual_shift save_origin_json auto_base :
  fs !! input_ply = Some (PlyFile text elements) ->
  get_element elements "vertex" = Ok vertex ->
  let run := convert_ply_to_local abspath splitext_root input_ply output_ply
               shift_mode manual_shift save_origin_json auto_base fs in
  let names : gset string := list_to_set (prop_names_of vertex) in
  (required ⊆ names ->
   Forall (fun c => col_len c = 0%nat) (map snd vertex) ->
   run = (Raise ValueError_no_points, fs) /\
   classify ValueError_no_points = EmptyInput)
  /\
  (~ required ⊆ names ->
   exists missing : gset string,
     run = (Raise (ValueError_missing_fields missing), fs) /\
     classify (ValueError_missing_fields missing) = MissingField /\
     missing <> ∅ /\
     forall n, n ∈ missing <->
               (n = "x" \/ n = "y" \/ n = "z")%string /\
               ~ In n (prop_names_of vertex)).
Proof.
  intros Hread Hvertex run names. subst run names.
  unfold convert_ply_to_local, PlyData_read. rewrite Hread. cbn.
  rewrite Hvertex. cbn. split.
  - intros Hreq Hzero. rewrite (localize_empty _ _ _ _ Hreq Hzero).
    split; reflexivity.
  - intros Hmiss. rewrite (localize_missing _ _ _ _ Hmiss).
    eexists; split; [reflexivity|]. split; [reflexivity|]. split.
    + intros Hempty. apply Hmiss. intros n Hn.
      destruct (decide (n ∈ (list_to_set (prop_names_of vertex) : gset string)))
        as [Hin|Hout]; [assumption|].
      assert (Hd : n ∈ required ∖ (list_to_set (prop_names_of vertex) : gset string))
        by (apply elem_of_difference; split; assumption).
      rewrite Hempty in Hd. apply not_elem_of_empty in Hd. contradiction.
    + intros n. apply missing_spec.
Qed.

Lemma empty_or_incomplete_input_rejected_witness :
  let run v := convert_ply_to_local (fun p => p) (fun p => p) "in.ply" "out.ply"
                 "auto" None true Sample.base1000 (Sample.fs_with v) in
  run Sample.vertex0 = (Raise ValueError_no_points, Sample.fs_with Sample.vertex0)
  /\ exists missing : gset string,
       run Sample.vertex_xy =
         (Raise (ValueError_missing_fields missing), Sample.fs_with Sample.vertex_xy)
       /\ "z"%string ∈ missing.
Proof.
  intros run. split.
  - assert (Hr : Sample.fs_with Sample.vertex0 !! "in.ply"%string =
                 Some (PlyFile true [("vertex"%string, Sample.vertex0)]))
      by (apply lookup_singleton_eq).
    destruct (empty_or_incomplete_input_rejected (fun p => p) (fun p => p)
                (Sample.fs_with Sample.vertex0) "in.ply" "out.ply" "auto" true
                [("vertex"%string, Sample.vertex0)] Sample.vertex0 None true
                Sample.base1000 Hr eq_refl) as [Ha _].
    apply Ha.
    + apply required_subseteq. simpl. tauto.
    + repeat constructor.
  - assert (Hr : Sample.fs_with Sample.vertex_xy !! "in.ply"%string =
                 Some (PlyFile true [("vertex"%string, Sample.vertex_xy)]))
      by (apply lookup_singleton_eq).
    destruct (empty_or_incomplete_input_rejected (fun p => p) (fun p => p)
                (Sample.fs_with Sample.vertex_xy) "in.ply" "out.ply" "auto" true
                [("vertex"%string, Sample.vertex_xy)] Sample.vertex_xy None true
                Sample.base1000 Hr eq_refl) as [_ Hb].
    destruct Hb as (missing & Hrun & _ & _ & Hspec).
    + rewrite required_subseteq. simpl. intros (_ & _ & [H|[H|[]]]); discriminate.
    + exists missing. split; [exact Hrun|].
      apply Hspec. split; [tauto|]. simpl. intros [H|[H|[]]]; discriminate.
Defined.

Lemma compute_shift_error_kind x y z pg mode ms b e :
  pg <> [] ->
  compute_shift x y z pg mode ms b = Raise e ->
  classify e = InvalidParameter.
Proof.
  intros Hpg. unfold compute_shift, _floor_base.
  assert (Hk : forall e0, classify e0 = InvalidParameter ->
                          @Raise vec3 e0 = Raise e -> classify e = InvalidParameter)
    by (intros e0 He0 [= <-]; exact He0).
  destruct (String.eqb mode "auto").
  - destruct (F64.leb b F64.zero); cbn; [apply Hk; reflexivity|discriminate].
  - destruct (String.eqb mode "manual").
    + destruct ms as [l|]; [destruct (negb _)|];
        try discriminate; apply Hk; reflexivity.
    + destruct (String.eqb mode "first_point").
      * destruct pg; [congruence|discriminate].
      * apply Hk; reflexivity.
Qed.

(** With a non-empty point array, the mode cascade raises exactly when the
    mode is unknown, when the mode is [auto] and the guard [base <= 0]
    holds, or when the mode is [manual] and the shift is absent or not of
    length 3. *)
Lemma compute_shift_raises_iff x y z pg mode ms b :
  pg <> [] ->
  raised (compute_shift x y z pg mode ms b) = true <->
  (mode <> "auto" /\ mode <> "manual" /\ mode <> "first_point")%string
  \/ (mode = "auto"%string /\ F64.leb b F64.zero = true)
  \/ (mode = "manual"%string /\
      forall l, ms = Some l -> length l <> 3%nat).
Proof.
  intros Hpg. unfold compute_shift, _floor_base.
  destruct (String.eqb_spec mode "auto") as [->|Ha].
  - destruct (F64.leb b F64.zero); cbn.
    + split; [intros _; right; left; tauto | reflexivity].
    + split; [discriminate|].
      intros [(H & _)|[(_ & H)|(H & _)]]; congruence.
  - destruct (String.eqb_spec mode "manual") as [->|Hm].
    + destruct ms as [l|]; cbn.
      * destruct (Nat.eqb_spec (length l) 3) as [E|E]; cbn.
        -- split; [discriminate|].
           intros [(_ & H & _)|[(H & _)|(_ & H)]]; try congruence.
           exfalso. exact (H l eq_refl E).
        -- split; [|reflexivity]. intros _. right; right.
           split; [reflexivity|]. congruence.
      * split; [|reflexivity]. intros _. right; right.
        split; [reflexivity|]. discriminate.
    + destruct (String.eqb_spec mode "first_point") as [->|Hf].
      * destruct pg; [congruence|]. cbn. split; [discriminate|].
        intros [(_ & _ & H)|[(H & _)|(H & _)]]; congruence.
      * cbn. split; [|reflexivity]. intros _. left. tauto.
Qed.

(** C7 (the failing case): NaN is not strictly positive, yet the guard
    [base <= 0] of the [auto] branch lets it through: no error is raised
    and the shift is NaN on every axis. *)
Theorem auto_base_nan_not_rejected :
  F64.ltb F64.zero S754_nan = false /\
  exists out locals,
    localize Sample.vertex1 "auto" None S754_nan =
    Ok (out, Vec3 S754_nan S754_nan S754_nan, locals).
Proof.
  split; [reflexivity|].
  do 2 eexists. vm_compute. reflexivity.
Qed.

(* ===================================================================== *)
(** * 8. The shift selector: unselected parameters *)
(* ===================================================================== *)

Lemma compute_shift_ignores_auto_base x y z pg mode ms b1 b2 :
  mode <> "auto"%string ->
  compute_shift x y z pg mode ms b1 = compute_shift x y z pg mode ms b2.
Proof.
  intros Hm. unfold compute_shift.
  destruct (String.eqb_spec mode "auto"); [contradiction|]. reflexivity.
Qed.

Lemma compute_shift_ignores_manual_shift x y z pg mode ms1 ms2 b :
  mode <> "manual"%string ->
  compute_shift x y z pg mode ms1 b = compute_shift x y z pg mode ms2 b.
Proof.
  intros Hm. unfold compute_shift.
  destruct (String.eqb_spec mode "auto"); [reflexivity|].
  destruct (String.eqb_spec mode "manual"); [contradiction|]. reflexivity.
Qed.

Lemma compute_shift_auto_base_error x y z pg mode ms b :
  compute_shift x y z pg mode ms b = Raise ValueError_auto_base ->
  mode = "auto"%string.
Proof.
  unfold compute_shift.
  destruct (String.eqb_spec mode "auto"); [tauto|].
  destruct (String.eqb mode "manual").
  - destruct ms as [l|]; [destruct (negb _)|]; discriminate.
  - destruct (String.eqb mode "first_point"); [destruct pg|]; discriminate.
Qed.

Lemma localize_congruence vertex mode ms b ms' b' :
  (forall x y z pg,
      compute_shift x y z pg mode ms b = compute_shift x y z pg mode ms' b') ->
  localize vertex mode ms b = localize vertex mode ms' b'.
Proof.
  intros H. unfold localize.
  destruct (negb _); [reflexivity|].
  destruct (field_float64 vertex "x") as [x|]; [|reflexivity]; cbn.
  destruct (field_float64 vertex "y") as [y|]; [|reflexivity]; cbn.
  destruct (field_float64 vertex "z") as [z|]; [|reflexivity]; cbn.
  destruct (Nat.eqb _ _); [reflexivity|].
  rewrite H. reflexivity.
Qed.

Lemma localize_auto_base_error vertex mode ms b :
  localize vertex mode ms b = Raise ValueError_auto_base ->
  mode = "auto"%string.
Proof.
  unfold localize, field_float64.
  destruct (negb _); [discriminate|].
  destruct (get_field vertex "x") as [cx|]; [|discriminate].
  destruct (get_field vertex "y") as [cy|]; [|discriminate].
  destruct (get_field vertex "z") as [cz|]; [|discriminate].
  cbn. destruct (Nat.eqb _ _); [discriminate|].
  match goal with
  | |- context [compute_shift ?x ?y ?z ?pg mode ms b] =>
      destruct (compute_shift x y z pg mode ms b) as [s|e] eqn:E
  end; cbn; [discriminate|].
  intros [= ->]. eapply compute_shift_auto_base_error; eassumption.
Qed.

(** C10: the result of the shift selector (output array, shift and local
    points, or the error) does not depend on [manual_shift] when the mode
    is [auto] or [first_point], and does not depend on [auto_base] when the
    mode is [manual] or [first_point]; in the latter modes no value of
    [auto_base], zero and negative ones included, raises the auto-base
    error. *)
Theorem unselected_parameters_ignored
    (vertex : ply_element) (shift_mode : string)
    (manual_shift manual_shift' : option (list spec_float))
    (auto_base auto_base' : spec_float) :
  (shift_mode = "auto"%string \/ shift_mode = "first_point"%string ->
   localize vertex shift_mode manual_shift auto_base =
   localize vertex shift_mode manual_shift' auto_base)
  /\
  (shift_mode = "manual"%string \/ shift_mode = "first_point"%string ->
   localize vertex shift_mode manual_shift auto_base =
   localize vertex shift_mode manual_shift auto_base' /\
   localize vertex shift_mode manual_shift auto_base <>
   Raise ValueError_auto_base).
Proof.
  split.
  - intros Hmode. apply localize_congruence. intros.
    apply compute_shift_ignores_manual_shift.
    destruct Hmode as [-> | ->]; discriminate.
  - intros Hmode.
    assert (Hna : shift_mode <> "auto"%string)
      by (destruct Hmode as [-> | ->]; discriminate).
    split.
    + apply localize_congruence. intros.
      apply compute_shift_ignores_auto_base. exact Hna.
    + intros Herr. apply localize_auto_base_error in Herr. contradiction.
Qed.

Lemma unselected_parameters_ignored_witness :
  localize Sample.vertex1 "first_point" None Sample.base1000 =
  localize Sample.vertex1 "first_point"
           (Some [F64.zero; F64.zero; F64.zero]) Sample.base1000
  /\ localize Sample.vertex1 "first_point" None Sample.base1000 =
     localize Sample.vertex1 "first_point" None (F64.of_Z (-5))
  /\ localize Sample.vertex1 "manual" (Some [F64.zero; F64.zero; F64.zero])
              Sample.base1000 =
     localize Sample.vertex1 "manual" (Some [F64.zero; F64.zero; F64.zero])
              F64.zero.
Proof.
  split; [|split].
  - apply (unselected_parameters_ignored Sample.vertex1 "first_point" None
             (Some [F64.zero; F64.zero; F64.zero]) Sample.base1000
             Sample.base1000).
    right; reflexivity.
  - apply (unselected_parameters_ignored Sample.vertex1 "first_point" None None
             Sample.base1000 (F64.of_Z (-5))).
    right; reflexivity.
  - apply (unselected_parameters_ignored Sample.vertex1 "manual"
             (Some [F64.zero; F64.zero; F64.zero])
             (Some [F64.zero; F64.zero; F64.zero])
             Sample.base1000 F64.zero).
    left; reflexivity.
Defined.

(* ===================================================================== *)
(** * 9. The ENU to ECEF converter *)
(* ===================================================================== *)

Lemma wf_col_len (v : ply_element) c :
  wf_element v -> In c (map snd v) -> col_len c = num_rows v.
Proof.
  intros [_ Hlen] Hc. destruct v as [|[n c0] tl]; [contradiction|].
  simpl. apply Hlen; [assumption|left; reflexivity].
Qed.

Lemma field_float64_wf v name c :
  wf_element v -> get_field v name = Some c ->
  field_float64 v name = Ok (astype_float64 c) /\
  length (astype_float64 c) = num_rows v.
Proof.
  intros Hwf Hc. unfold field_float64. rewrite Hc. split; [reflexivity|].
  rewrite astype_float64_length. apply wf_col_len; [assumption|].
  eapply get_field_In; eassumption.
Qed.

Lemma map_seq_vstack_T {A} (f : spec_float -> spec_float -> spec_float -> A)
    east north up :
  length north = length east -> length up = length east ->
  map (fun j => f (nth j east S754_nan) (nth j north S754_nan)
                  (nth j up S754_nan))
      (seq 0 (length east)) =
  map (fun p => f (vx p) (vy p) (vz p)) (vstack_T east north up).
Proof.
  revert north up.
  induction east as [|a east IH]; intros [|b north] [|c up]; simpl;
    intros Hn Hu; try discriminate; try reflexivity.
  f_equal. rewrite <- seq_shift, map_map. apply IH; lia.
Qed.

Section Rows.
Variable np_sin np_cos : spec_float -> spec_float.
Variable lon lat h : spec_float.

(** The batched form [origin.reshape(3,1) + R @ vstack] of the script is,
    row by row, the per-point formula of the specification. *)
Lemma enu_to_ecef_rows east north up :
  length north = length east -> length up = length east ->
  enu_to_ecef np_sin np_cos lon lat h east north up =
  [ map (Spec.ecef_x np_sin np_cos lon lat h) (vstack_T east north up);
    map (Spec.ecef_y np_sin np_cos lon lat h) (vstack_T east north up);
    map (Spec.ecef_z np_sin np_cos lon lat h) (vstack_T east north up) ].
Proof.
  intros Hn Hu. unfold enu_to_ecef, matmul, rotation, origin_ecef, origin_trig.
  cbn [map add_column_vector ncols sin_lat cos_lat sin_lon cos_lon].
  rewrite !map_map.
  unfold column_of, dot. cbn [map combine fold_left fst snd].
  rewrite !(map_seq_vstack_T
              (fun e n u =>
                 F64.add _ (F64.add (F64.add (F64.mul _ e) (F64.mul _ n))
                                    (F64.mul _ u)))
              east north up Hn Hu).
  reflexivity.
Qed.
End Rows.



Lemma has_xyz_true v :
  has_xyz v = true <->
  exists cx cy cz, get_field v "x" = Some cx /\ get_field v "y" = Some cy /\
                   get_field v "z" = Some cz.
Proof.
  unfold has_xyz.
  destruct (get_field v "x") as [cx|], (get_field v "y") as [cy|],
    (get_field v "z") as [cz|]; split;
    try discriminate; try (intros (? & ? & ? & ? & ? & ?); discriminate);
    eauto 7.
Qed.


Ltac solve_wf_element :=
  split;
  [ simpl;
    repeat (apply List.NoDup_cons; [simpl; intuition discriminate|]);
    apply List.NoDup_nil
  | intros c1 c2 H1 H2; simpl in H1, H2; intuition subst; reflexivity ].



Lemma add_zero_r x z : is_zero z = true -> same_float (F64.add x z) x.
Proof.
  destruct z as [sz| | |]; try discriminate. intros _.
  destruct x as [[]|[]| |]; destruct sz; simpl; unfold same_float; simpl; auto.
Qed.










(* ===================================================================== *)
(** * 10. The shift selector: the output array *)
(* ===================================================================== *)

Lemma build_vertex_array_eq vertex locals :
  build_vertex_array vertex locals =
  map (fun name => (name, stored_column vertex locals name)) (prop_names_of vertex).
Proof.
  unfold build_vertex_array, stored_column. apply map_ext. intros name.
  destruct (String.eqb name "x"), (String.eqb name "y"), (String.eqb name "z"); reflexivity.
Qed.

Lemma get_field_map (f : string -> column) names name :
  In name names ->
  get_field (map (fun n => (n, f n)) names) name = Some (f name).
Proof.
  induction names as [|n tl IH]; simpl; [tauto|].
  destruct (String.eqb_spec n name) as [->|Hne]; [reflexivity|].
  intros [?|?]; [contradiction|auto].
Qed.

Lemma prop_names_build vertex locals :
  prop_names_of (build_vertex_array vertex locals) = prop_names_of vertex.
Proof.
  rewrite build_vertex_array_eq. unfold prop_names_of at 1.
  rewrite map_map. simpl. apply map_id.
Qed.

Lemma get_field_build vertex locals name :
  In name (prop_names_of vertex) ->
  get_field (build_vertex_array vertex locals) name =
  Some (stored_column vertex locals name).
Proof. intros H. rewrite build_vertex_array_eq. apply get_field_map. exact H. Qed.

Lemma localize_ok_inv vertex mode ms b out shift locals :
  localize vertex mode ms b = Ok (out, shift, locals) ->
  exists cx cy cz,
    get_field vertex "x" = Some cx /\ get_field vertex "y" = Some cy /\
    get_field vertex "z" = Some cz /\
    let x := astype_float64 cx in
    let y := astype_float64 cy in
    let z := astype_float64 cz in
    let pg := vstack_T x y z in
    pg <> [] /\
    compute_shift x y z pg mode ms b = Ok shift /\
    locals = map (sub_shift shift) pg /\
    out = build_vertex_array vertex locals.
Proof.
  unfold localize, field_float64.
  destruct (negb _); [discriminate|].
  destruct (get_field vertex "x") as [cx|]; [|discriminate].
  destruct (get_field vertex "y") as [cy|]; [|discriminate].
  destruct (get_field vertex "z") as [cz|]; [|discriminate].
  cbn [mbind result_bind].
  destruct (Nat.eqb_spec (length (vstack_T (astype_float64 cx) (astype_float64 cy) (astype_float64 cz))) 0) as [E|E];
    [discriminate|].
  destruct (compute_shift _ _ _ _ mode ms b) as [s|e] eqn:Es; cbn; [|discriminate].
  intros [= <- <- <-].
  exists cx, cy, cz. repeat (split; [reflexivity|]). cbn zeta.
  split; [intros H; rewrite H in E; apply E; reflexivity|].
  split; [exact Es|]. split; reflexivity.
Qed.

Lemma localize_ok vertex mode ms b cx cy cz shift :
  get_field vertex "x" = Some cx -> get_field vertex "y" = Some cy ->
  get_field vertex "z" = Some cz ->
  let x := astype_float64 cx in
  let y := astype_float64 cy in
  let z := astype_float64 cz in
  let pg := vstack_T x y z in
  pg <> [] ->
  compute_shift x y z pg mode ms b = Ok shift ->
  localize vertex mode ms b =
  Ok (build_vertex_array vertex (map (sub_shift shift) pg), shift,
      map (sub_shift shift) pg).
Proof.
  intros Hx Hy Hz x y z pg Hpg Hs.
  unfold localize, field_float64.
  rewrite bool_decide_eq_true_2.
  2:{ apply required_subseteq. repeat split; eapply get_field_Some_name; eassumption. }
  cbn [negb]. rewrite Hx, Hy, Hz. cbn [mbind result_bind].
  fold x y z. fold pg.
  destruct pg as [|p tl] eqn:Ep; [congruence|]. cbn [length Nat.eqb].
  rewrite Hs. reflexivity.
Qed.

Lemma sub_self x : is_finite x = true -> F64.sub x x = S754_zero false.
Proof.
  destruct x as [[]| | |s m e]; try discriminate; intros _; try reflexivity.
  unfold F64.sub, SFsub. rewrite Z.min_id. unfold shl_align.
  rewrite !Z.sub_diag. reflexivity.
Qed.










(* ===================================================================== *)
(** * 11. The shift selector: first_point mode *)
(* ===================================================================== *)

Lemma sub_shift_self p : vec3_finite p = true -> sub_shift p p = vec3_zero.
Proof.
  unfold vec3_finite, sub_shift, vec3_zero. intros H.
  apply andb_prop in H as [H Hz]. apply andb_prop in H as [Hx Hy].
  rewrite !sub_self by assumption. reflexivity.
Qed.

(** C8 (as the code has it): in [first_point] mode the selector returns,
    and the shift is the first row of the global points, bit for bit; when
    the three coordinates of that row are finite, the local coordinate of
    point 0 is (0, 0, 0), in float64 and as stored in float32. *)
Theorem first_point_shift_is_point_zero
    (vertex : ply_element) (manual_shift : option (list spec_float))
    (auto_base : spec_float) (cx cy cz : column) (p0 : vec3) (rest : list vec3) :
  get_field vertex "x" = Some cx ->
  get_field vertex "y" = Some cy ->
  get_field vertex "z" = Some cz ->
  vstack_T (astype_float64 cx) (astype_float64 cy) (astype_float64 cz) =
    p0 :: rest ->
  exists out locals,
    localize vertex "first_point" manual_shift auto_base = Ok (out, p0, locals) /\
    (vec3_finite p0 = true ->
     exists ltl xs ys zs,
       locals = vec3_zero :: ltl /\
       get_field out "x" = Some (ColF4 (F64.zero :: xs)) /\
       get_field out "y" = Some (ColF4 (F64.zero :: ys)) /\
       get_field out "z" = Some (ColF4 (F64.zero :: zs))).
Proof.
  intros Hx Hy Hz Hpg.
  assert (Hne : vstack_T (astype_float64 cx) (astype_float64 cy)
                         (astype_float64 cz) <> []) by (rewrite Hpg; discriminate).
  assert (Hs : compute_shift (astype_float64 cx) (astype_float64 cy)
                 (astype_float64 cz)
                 (vstack_T (astype_float64 cx) (astype_float64 cy)
                           (astype_float64 cz))
                 "first_point" manual_shift auto_base = Ok p0)
    by (rewrite Hpg; reflexivity).
  pose proof (localize_ok vertex "first_point" manual_shift auto_base cx cy cz
                p0 Hx Hy Hz Hne Hs) as Hrun.
  do 2 eexists. split; [exact Hrun|].
  intros Hfin. rewrite Hpg. cbn [map]. rewrite (sub_shift_self p0 Hfin).
  do 4 eexists. split; [reflexivity|].
  rewrite !get_field_build by (eapply get_field_Some_name; eassumption).
  unfold stored_column. cbn [String.eqb Ascii.eqb Bool.eqb map vec3_zero vx vy vz F32.of_f64 F64.zero].
  repeat split; reflexivity.
Qed.

Lemma first_point_shift_is_point_zero_witness :
  exists out locals,
    localize Sample.vertex1 "first_point" None Sample.base1000 =
      Ok (out, Vec3 (F64.lit 17 10) (F64.lit 25 1) F64.zero, locals) /\
    locals = [vec3_zero] /\
    get_field out "x" = Some (ColF4 [F64.zero]).
Proof.
  destruct (first_point_shift_is_point_zero Sample.vertex1 None Sample.base1000
              (ColF8 [F64.lit 17 10]) (ColF8 [F64.lit 25 1]) (ColF8 [F64.zero])
              (Vec3 (F64.lit 17 10) (F64.lit 25 1) F64.zero) []
              eq_refl eq_refl eq_refl eq_refl)
    as (out & locals & Hrun & Hzero).
  exists out, locals. split; [exact Hrun|].
  destruct (Hzero eq_refl) as (ltl & xs & ys & zs & Hl & Gx & _ & _).
  assert (E : Ok (out, Vec3 (F64.lit 17 10) (F64.lit 25 1) F64.zero, locals) =
              localize Sample.vertex1 "first_point" None Sample.base1000)
    by (symmetry; exact Hrun).
  vm_compute in E. injection E as -> ->.
  split; reflexivity.
Defined.

(** C8 (the claim as stated fails): a first point with a NaN coordinate is
    taken as the shift, and its local coordinate is NaN, not 0. *)
Lemma first_point_nan_local_not_zero :
  exists out shift locals,
    localize SampleNaN.vertex "first_point" None Sample.base1000 =
      Ok (out, shift, locals) /\
    vx shift = S754_nan /\
    (exists l0, nth_error locals 0 = Some l0 /\ vx l0 = S754_nan /\
                l0 <> vec3_zero) /\
    get_field out "x" = Some (ColF4 [S754_nan]).
Proof.
  do 3 eexists. split; [vm_compute; reflexivity|].
  split; [reflexivity|]. split; [|reflexivity].
  eexists. split; [reflexivity|]. split; [reflexivity|]. discriminate.
Qed.

(* ===================================================================== *)
(** * 12. The RGB normaliser *)
(* ===================================================================== *)

Lemma normalize_channel_length val out :
  normalize_channel val = Ok out -> length out = col_len val.
Proof.
  destruct val as [t d|d|d]; simpl.
  - intros [= <-]. apply length_map.
  - unfold normalize_float. destruct (np_max d); [|discriminate].
    destruct (F64.leb _ _); intros [= <-]; rewrite ?length_map; reflexivity.
  - unfold normalize_float. destruct (np_max d); [|discriminate].
    destruct (F64.leb _ _); intros [= <-]; rewrite ?length_map; reflexivity.
Qed.



(* ===================================================================== *)
(** * 13. Round to nearest even: what the float operations lose *)
(* ===================================================================== *)

(** ** Binary digits *)

Lemma digits2_pos_bounds p :
  2 ^ (Zpos (digits2_pos p) - 1) <= Zpos p < 2 ^ Zpos (digits2_pos p).
Proof.
  induction p as [p IH|p IH|]; cbn [digits2_pos].
  - rewrite Pos2Z.inj_succ.
    replace (Z.succ (Zpos (digits2_pos p)) - 1) with (Zpos (digits2_pos p) - 1 + 1) by lia.
    rewrite Z.pow_succ_r by lia.
    rewrite Z.pow_add_r by lia. change (2 ^ 1) with 2. lia.
  - rewrite Pos2Z.inj_succ.
    replace (Z.succ (Zpos (digits2_pos p)) - 1) with (Zpos (digits2_pos p) - 1 + 1) by lia.
    rewrite Z.pow_succ_r by lia.
    rewrite Z.pow_add_r by lia. change (2 ^ 1) with 2. lia.
  - simpl. lia.
Qed.

Lemma Zdigits2_bounds m :
  0 < m -> 2 ^ (Zdigits2 m - 1) <= m < 2 ^ Zdigits2 m.
Proof.
  destruct m as [|p|p]; try lia. intros _. apply digits2_pos_bounds.
Qed.

Lemma Zdigits2_pos m : 0 < m -> 0 < Zdigits2 m.
Proof. destruct m; simpl; lia. Qed.

Lemma Zdigits2_unique m k :
  0 < m -> 2 ^ (k - 1) <= m < 2 ^ k -> Zdigits2 m = k.
Proof.
  intros Hm [Hlo Hhi].
  pose proof (Zdigits2_bounds m Hm) as [Dlo Dhi].
  pose proof (Zdigits2_pos m Hm) as Dpos.
  assert (0 < k).
  { destruct (Z_lt_le_dec 0 k); [assumption|].
    exfalso. destruct (Z.eq_dec k 0) as [->|]; [simpl in Hhi; lia|].
    rewrite (Z.pow_neg_r 2 k) in Hhi by lia. lia. }
  assert (k - 1 < Zdigits2 m).
  { apply (Z.pow_lt_mono_r_iff 2); lia. }
  assert (Zdigits2 m - 1 < k).
  { apply (Z.pow_lt_mono_r_iff 2); lia. }
  lia.
Qed.

Lemma Zdigits2_mul_pow m k :
  0 < m -> 0 <= k -> Zdigits2 (m * 2 ^ k) = Zdigits2 m + k.
Proof.
  intros Hm Hk.
  pose proof (Zdigits2_bounds m Hm) as [Dlo Dhi].
  pose proof (Zdigits2_pos m Hm) as Dpos.
  assert (0 < 2 ^ k) by (apply Z.pow_pos_nonneg; lia).
  apply Zdigits2_unique; [nia|].
  replace (Zdigits2 m + k - 1) with (Zdigits2 m - 1 + k) by lia.
  rewrite !Z.pow_add_r by lia. nia.
Qed.

Lemma Zdigits2_le_pow m k : 0 <= k -> 0 <= m < 2 ^ k -> Zdigits2 m <= k.
Proof.
  intros Hk [Hm Hlt]. destruct (Z.eq_dec m 0) as [->|]; [simpl; lia|].
  pose proof (Zdigits2_bounds m ltac:(lia)) as [Dlo _].
  assert (Zdigits2 m - 1 < k) by (apply (Z.pow_lt_mono_r_iff 2); lia).
  lia.
Qed.

(** ** Shift records *)

Lemma shr_window_exact m : 0 <= m -> shr_window m 1 (shr_record_of_loc m loc_Exact).
Proof.
  intros Hm. split; [assumption|]. exists 0. simpl. repeat split; lia.
Qed.

Lemma shr_1_window V W mrs :
  0 < W -> shr_window V W mrs -> shr_window V (2 * W) (shr_1 mrs).
Proof.
  intros HW [Hnn (rem & Hm & Hrem & Hloc)].
  destruct mrs as [q r s]. cbn [shr_m shr_r shr_s] in *.
  unfold shr_window, loc_window.
  assert (Hs : orb r s = false -> rem = 0)
    by (destruct r, s; simpl in *; try discriminate; auto).
  assert (Hs' : orb r s = true -> 0 < rem)
    by (destruct r, s; simpl in *; try discriminate; lia).
  unfold shr_1.
  destruct q as [|[p|p|]|p]; cbn [shr_m shr_r shr_s]; try lia.
  - split; [lia|]. exists rem. split; [lia|]. split; [lia|].
    destruct (orb r s) eqn:Ers; simpl;
      [specialize (Hs' eq_refl)|specialize (Hs eq_refl)]; lia.
  - split; [lia|]. exists (W + rem). split; [lia|]. split; [lia|].
    destruct (orb r s) eqn:Ers; simpl;
      [specialize (Hs' eq_refl)|specialize (Hs eq_refl)]; lia.
  - split; [lia|]. exists rem. split; [lia|]. split; [lia|].
    destruct (orb r s) eqn:Ers; simpl;
      [specialize (Hs' eq_refl)|specialize (Hs eq_refl)]; lia.
  - split; [lia|]. exists (W + rem). split; [lia|]. split; [lia|].
    destruct (orb r s) eqn:Ers; simpl;
      [specialize (Hs' eq_refl)|specialize (Hs eq_refl)]; lia.
Qed.

Lemma pow2_xO p : 2 ^ Zpos p~0 = 2 ^ Zpos p * 2 ^ Zpos p.
Proof.
  replace (Zpos p~0) with (Zpos p + Zpos p) by lia.
  rewrite Z.pow_add_r by lia. reflexivity.
Qed.

Lemma pow2_xI p : 2 ^ Zpos p~1 = 2 * (2 ^ Zpos p * 2 ^ Zpos p).
Proof.
  replace (Zpos p~1) with (1 + (Zpos p + Zpos p)) by lia.
  rewrite !Z.pow_add_r by lia. reflexivity.
Qed.

Lemma iter_pos_shr_1 V p : forall W mrs,
  0 < W -> shr_window V W mrs ->
  shr_window V (W * 2 ^ Zpos p) (SpecFloat.iter_pos shr_1 p mrs).
Proof.
  induction p as [p IH|p IH|]; intros W mrs HW Hinv; cbn [SpecFloat.iter_pos].
  - assert (P : 0 < 2 ^ Zpos p) by (apply Z.pow_pos_nonneg; lia).
    replace (W * 2 ^ Zpos p~1) with (((2 * W) * 2 ^ Zpos p) * 2 ^ Zpos p)
      by (rewrite pow2_xI; ring).
    apply IH; [nia|]. apply IH; [lia|]. apply shr_1_window; assumption.
  - assert (P : 0 < 2 ^ Zpos p) by (apply Z.pow_pos_nonneg; lia).
    replace (W * 2 ^ Zpos p~0) with ((W * 2 ^ Zpos p) * 2 ^ Zpos p)
      by (rewrite pow2_xO; ring).
    apply IH; [nia|]. apply IH; assumption.
  - change (2 ^ 1) with 2. rewrite Z.mul_comm. apply shr_1_window; assumption.
Qed.

Lemma shr_window_spec V W mrs e n :
  0 < W -> shr_window V W mrs ->
  snd (shr mrs e n) = e + Z.max n 0 /\
  shr_window V (W * 2 ^ Z.max n 0) (fst (shr mrs e n)).
Proof.
  intros HW Hinv. unfold shr. destruct n as [|p|p]; cbn [fst snd].
  - split; [change (Z.max 0 0) with 0; lia|].
    change (2 ^ Z.max 0 0) with 1. rewrite Z.mul_1_r. assumption.
  - split; [lia|]. rewrite Z.max_l by lia. apply iter_pos_shr_1; assumption.
  - split; [rewrite Z.max_r by lia; lia|]. rewrite Z.max_r by lia.
    change (2 ^ 0) with 1. rewrite Z.mul_1_r. assumption.
Qed.

Lemma round_nearest_even_window V W mrs :
  0 < W -> shr_window V W mrs ->
  let m1 := round_nearest_even (shr_m mrs) (loc_of_shr_record mrs) in
  shr_m mrs <= m1 <= shr_m mrs + 1 /\
  2 * Z.abs (m1 * W - V) <= W.
Proof.
  intros HW [Hnn (rem & Hm & Hrem & Hloc)].
  destruct mrs as [q r s]. cbn [shr_m shr_r shr_s] in *.
  destruct r, s; cbn [loc_of_shr_record round_nearest_even loc_window] in *.
  - split; [lia|]. nia.
  - destruct (Z.even q); (split; [lia|]); nia.
  - split; [lia|]. nia.
  - split; [lia|]. nia.
Qed.

(** ** The rounding step *)

Section Rounding.
Variable prec emax : Z.
Hypothesis Hprec : 0 < prec.

#[local] Abbreviation fexp := (SpecFloat.fexp prec emax).
#[local] Abbreviation emin := (SpecFloat.emin prec emax).

Lemma fexp_eq x : fexp x = Z.max (x - prec) emin.
Proof. reflexivity. Qed.

(** [binary_round_aux] on a mantissa [mz] whose record stands for [V] in
    units of [c]: the result is [V / c * 2^ez] rounded to nearest, at most
    half a unit of the last kept place away, with a mantissa below
    [2^prec]. *)
Lemma binary_round_aux_spec s c V mz ez lx :
  0 < c -> shr_window V c (shr_record_of_loc mz lx) ->
  let k := Z.max (fexp (Zdigits2 mz + ez) - ez) 0 in
  exists m'' e'',
    binary_round_aux prec emax s mz ez lx = finish prec emax s m'' e'' /\
    0 <= m'' < 2 ^ prec /\
    (e'' = ez + k \/ (e'' = ez + k + 1 /\ m'' = 2 ^ (prec - 1))) /\
    2 * Z.abs (m'' * (c * 2 ^ (e'' - ez)) - V) <= c * 2 ^ k /\
    (k = 0 -> V = c * mz -> e'' = ez /\ m'' = mz).
Proof.
  intros Hc Hstart k.
  assert (Hmz : 0 <= mz /\ c * mz <= V < c * (mz + 1)).
  { destruct Hstart as (Hq & rem & HV & Hrem & _).
    destruct lx as [|[]]; cbn [shr_record_of_loc shr_m] in *; nia. }
  destruct Hmz as [Hmz HVmz].
  unfold binary_round_aux, shr_fexp.
  pose proof (shr_window_spec V c (shr_record_of_loc mz lx) ez
                (fexp (Zdigits2 mz + ez) - ez) Hc Hstart) as H1.
  destruct (shr (shr_record_of_loc mz lx) ez (fexp (Zdigits2 mz + ez) - ez))
    as [mrs' e'].
  cbn [fst snd] in H1. destruct H1 as [He' Hinv]. fold k in He', Hinv.
  assert (Hk : 0 <= k) by (subst k; lia).
  assert (P2k : 0 < 2 ^ k) by (apply Z.pow_pos_nonneg; lia).
  assert (HW : 0 < c * 2 ^ k) by nia.
  pose proof (round_nearest_even_window V (c * 2 ^ k) mrs' HW Hinv) as Hr.
  cbv zeta in Hr.
  set (m1 := round_nearest_even (shr_m mrs') (loc_of_shr_record mrs')) in *.
  destruct Hr as (Hm1 & Herr).
  destruct Hinv as (Hq & rem & HV & Hrem & _).
  assert (Hm1nn : 0 <= m1) by lia.
  assert (Hqlo : shr_m mrs' * 2 ^ k <= mz) by nia.
  assert (Hqhi : mz < (shr_m mrs' + 1) * 2 ^ k) by nia.
  pose proof (shr_window_spec m1 1 (shr_record_of_loc m1 loc_Exact) e'
                (fexp (Zdigits2 m1 + e') - e') ltac:(lia)
                (shr_window_exact m1 Hm1nn)) as H2.
  cbn [shr_record_of_loc].
  change {| shr_m := m1; shr_r := false; shr_s := false |}
    with (shr_record_of_loc m1 loc_Exact).
  destruct (shr (shr_record_of_loc m1 loc_Exact) e'
                (fexp (Zdigits2 m1 + e') - e')) as [mrs'' e''].
  cbn [fst snd] in H2. destruct H2 as [He'' Hinv2].
  (* the rounded mantissa has at most prec digits, or is 2^prec *)
  set (d := Zdigits2 mz) in *.
  assert (Hd : 0 <= d) by (subst d; destruct mz; simpl; lia).
  assert (Hmzd : mz < 2 ^ d).
  { destruct (Z.eq_dec mz 0) as [->|]; [simpl; lia|].
    apply Zdigits2_bounds. lia. }
  assert (Hm1_le : m1 <= 2 ^ prec /\ emin <= e').
  { unfold k in He'. rewrite fexp_eq in He'.
    destruct (Z_lt_le_dec d k) as [Hdk|Hdk].
    - assert (mz < 2 ^ k).
      { apply Z.lt_le_trans with (2 ^ d); [lia|]. apply Z.pow_le_mono_r; lia. }
      assert (shr_m mrs' = 0) by nia.
      assert (0 < 2 ^ prec) by (apply Z.pow_pos_nonneg; lia).
      split; [lia|]. lia.
    - assert (Hsplit : 2 ^ d = 2 ^ (d - k) * 2 ^ k)
        by (rewrite <- Z.pow_add_r by lia; f_equal; lia).
      assert (shr_m mrs' < 2 ^ (d - k)) by nia.
      assert (d - k <= prec) by (unfold k; rewrite fexp_eq; lia).
      assert (2 ^ (d - k) <= 2 ^ prec) by (apply Z.pow_le_mono_r; lia).
      split; [lia|]. lia. }
  destruct Hm1_le as [Hm1_le Hemin].
  assert (Hn2 : (fexp (Zdigits2 m1 + e') - e' <= 0 /\ m1 < 2 ^ prec) \/
                (fexp (Zdigits2 m1 + e') - e' = 1 /\ m1 = 2 ^ prec)).
  { rewrite fexp_eq.
    destruct (Z.eq_dec m1 (2 ^ prec)) as [Heq|Hne].
    - right. split; [|assumption].
      assert (Zdigits2 m1 = prec + 1).
      { apply Zdigits2_unique.
        - rewrite Heq. apply Z.pow_pos_nonneg; lia.
        - rewrite Heq. replace (prec + 1 - 1) with prec by lia.
          split; [lia|]. apply Z.pow_lt_mono_r; lia. }
      lia.
    - left. split; [|lia].
      assert (Zdigits2 m1 <= prec) by (apply Zdigits2_le_pow; lia).
      lia. }
  exists (shr_m mrs''), e''.
  split; [reflexivity|].
  destruct Hinv2 as (Hq2 & rem2 & Hm1_eq & Hrem2 & _).
  destruct Hn2 as [[Hle Hlt]|[Hone Hpow]].
  - rewrite Z.max_r in He'', Hm1_eq, Hrem2 by lia.
    change (2 ^ 0) with 1 in Hm1_eq, Hrem2.
    assert (Em : shr_m mrs'' = m1) by lia.
    split; [lia|]. split; [lia|]. split.
    + replace (e'' - ez) with k by lia. rewrite Em. exact Herr.
    + intros K0 HVeq. split; [lia|]. rewrite Em.
      rewrite K0 in Herr. change (2 ^ 0) with 1 in Herr. nia.
  - rewrite Hone in He'', Hm1_eq, Hrem2.
    change (Z.max 1 0) with 1 in He'', Hm1_eq, Hrem2.
    change (2 ^ 1) with 2 in Hm1_eq, Hrem2.
    assert (Hp2 : 2 ^ prec = 2 * 2 ^ (prec - 1)).
    { rewrite <- Z.pow_succ_r by lia. f_equal. lia. }
    assert (P1 : 0 < 2 ^ (prec - 1)) by (apply Z.pow_pos_nonneg; lia).
    assert (rem2 = 0) by lia.
    split; [lia|]. split; [lia|]. split.
    + replace (e'' - ez) with (k + 1) by lia.
      rewrite Z.pow_add_r by lia. change (2 ^ 1) with 2.
      replace (shr_m mrs'' * (c * (2 ^ k * 2))) with (m1 * (c * 2 ^ k)) by nia.
      exact Herr.
    + intros K0 HVeq. exfalso.
      rewrite K0 in Herr, He'. change (2 ^ 0) with 1 in Herr.
      assert (Em1 : m1 = mz) by nia.
      assert (Ee' : e' = ez) by lia.
      assert (Hk1 : k = Z.max 1 0)
        by (unfold k, d; rewrite <- Em1, <- Ee', Hone; reflexivity).
      change (Z.max 1 0) with 1 in Hk1. lia.
Qed.

End Rounding.

Lemma shl_align_spec mx ex ex' :
  let '(mz, ez) := shl_align mx ex ex' in
  ez = Z.min ex ex' /\ Zpos mz = Zpos mx * 2 ^ (ex - ez).
Proof.
  unfold shl_align. destruct (ex' - ex) as [|d|d] eqn:E.
  - split; [lia|]. rewrite Z.sub_diag. simpl. lia.
  - split; [lia|]. rewrite Z.sub_diag. simpl. lia.
  - split; [lia|].
    change (Pos.iter xO mx d) with (shift_pos d mx).
    rewrite shift_pos_correct.
    replace (ex - ex') with (Zpos d) by lia.
    change (2 ^ Zpos d) with (Z.pow_pos 2 d). lia.
Qed.

Lemma new_location_window nb r q :
  0 < nb -> 0 <= q -> 0 <= r < nb ->
  shr_window (q * nb + r) nb (shr_record_of_loc q (new_location nb r)).
Proof.
  intros Hnb Hq Hr.
  assert (Hflags : match new_location nb r with
                   | loc_Exact => r = 0
                   | loc_Inexact Lt => 0 < 2 * r < nb
                   | loc_Inexact Eq => 2 * r = nb
                   | loc_Inexact Gt => nb < 2 * r
                   end).
  { unfold new_location, new_location_even, new_location_odd.
    destruct (Z.even nb) eqn:Hev.
    - destruct (Z.eqb_spec r 0); [assumption|].
      destruct (Z.compare_spec (2 * r) nb); lia.
    - destruct (Z.eqb_spec r 0); [assumption|].
      assert (Hodd : Z.odd nb = true) by (rewrite <- Z.negb_even, Hev; reflexivity).
      apply Z.odd_spec in Hodd as [h Hh].
      destruct (Z.compare_spec (2 * r + 1) nb); lia. }
  destruct (new_location nb r) as [|[]];
    (split; [exact Hq|]); exists r;
    cbn [shr_record_of_loc shr_m shr_r shr_s loc_window];
    (split; [reflexivity|]); (split; assumption).
Qed.

Section Ops.
Variable prec emax : Z.
Hypothesis Hprec : 0 < prec.

Lemma binary_round_spec s m e :
  exists mz ez m'' e'',
    0 < mz /\ ez <= e /\ mz = Zpos m * 2 ^ (e - ez) /\
    binary_round prec emax s m e = finish prec emax s m'' e'' /\
    0 <= m'' < 2 ^ prec /\
    (e'' = SpecFloat.fexp prec emax (Zdigits2 mz + ez) \/
     (e'' = SpecFloat.fexp prec emax (Zdigits2 mz + ez) + 1 /\
      m'' = 2 ^ (prec - 1))) /\
    2 * Z.abs (m'' * 2 ^ (e'' - ez) - mz) <=
    2 ^ Z.max (SpecFloat.fexp prec emax (Zdigits2 mz + ez) - ez) 0 /\
    ez <= SpecFloat.fexp prec emax (Zdigits2 mz + ez) /\
    (SpecFloat.fexp prec emax (Zdigits2 (Zpos m) + e) <= e ->
     e'' = ez /\ m'' = mz /\
     ez = SpecFloat.fexp prec emax (Zdigits2 (Zpos m) + e)).
Proof.
  unfold binary_round.
  pose proof (shl_align_spec m e
                (SpecFloat.fexp prec emax (Zpos (digits2_pos m) + e))) as Hs.
  destruct (shl_align m e (SpecFloat.fexp prec emax (Zpos (digits2_pos m) + e)))
    as [mz ez].
  destruct Hs as [Hez Hmz].
  destruct (binary_round_aux_spec prec emax Hprec s 1 (Zpos mz) (Zpos mz) ez
              loc_Exact ltac:(lia) (shr_window_exact (Zpos mz) ltac:(lia)))
    as (m'' & e'' & Hr & Hnn & Hle & Herr & Hk0).
  exists (Zpos mz), ez, m'', e''.
  split; [lia|]. split; [lia|]. split; [exact Hmz|]. split; [exact Hr|].
  assert (Hd : Zdigits2 (Zpos mz) + ez = Zdigits2 (Zpos m) + e).
  { rewrite Hmz. rewrite Zdigits2_mul_pow by lia. lia. }
  assert (Hfz : ez <= SpecFloat.fexp prec emax (Zdigits2 (Zpos mz) + ez))
    by (rewrite Hd, Hez; simpl Zdigits2; lia).
  split; [exact Hnn|]. split; [lia|]. split; [|split].
  - rewrite !Z.mul_1_l in Herr. exact Herr.
  - exact Hfz.
  - intros Hfe.
    rewrite Hd in Hk0.
    assert (Hezeq : ez = SpecFloat.fexp prec emax (Zdigits2 (Zpos m) + e)).
    { rewrite Hez. simpl Zdigits2 in Hfe |- *. lia. }
    rewrite <- Hezeq in Hk0. rewrite Z.sub_diag in Hk0.
    destruct (Hk0 eq_refl ltac:(lia)) as [-> ->]. auto.
Qed.

(** The quotient, exponent and location computed for a division stand
    for [mx * 2^s / my] with [s = ex - ey - e'], and the quotient is long
    enough for the result to need no left shift. *)
Lemma SFdiv_core_binary_spec mx ex my ey :
  exists q e' l s',
    SFdiv_core_binary prec emax (Zpos mx) ex (Zpos my) ey = (q, e', l) /\
    0 <= s' /\ s' = ex - ey - e' /\ 0 <= q /\
    shr_window (Zpos mx * 2 ^ s') (Zpos my) (shr_record_of_loc q l) /\
    e' <= SpecFloat.fexp prec emax (Zdigits2 q + e').
Proof.
  unfold SFdiv_core_binary.
  set (d1 := Zdigits2 (Zpos mx)). set (d2 := Zdigits2 (Zpos my)).
  set (e' := Z.min (SpecFloat.fexp prec emax (d1 + ex - (d2 + ey))) (ex - ey)).
  set (s' := ex - ey - e').
  assert (Hs' : 0 <= s') by (subst s' e'; lia).
  assert (Hshift : forall t, 0 <= t ->
            match t with
            | Zpos _ => Z.shiftl (Zpos mx) t
            | Z0 => Zpos mx
            | Zneg _ => 0
            end = Zpos mx * 2 ^ t).
  { intros [|p|p] Ht; [simpl; lia| |lia].
    rewrite Z.shiftl_mul_pow2 by lia. reflexivity. }
  rewrite (Hshift s' Hs').
  set (m' := Zpos mx * 2 ^ s').
  assert (Hm' : m' = Zpos mx * 2 ^ s') by reflexivity.
  pose proof (Z_div_mod m' (Zpos my) ltac:(lia)) as Hdiv.
  destruct (Z.div_eucl m' (Zpos my)) as [q r]. destruct Hdiv as [Hqr Hr].
  assert (P : 0 < 2 ^ s') by (apply Z.pow_pos_nonneg; lia).
  assert (Hq : 0 <= q) by nia.
  exists q, e', (new_location (Zpos my) r), s'.
  split; [reflexivity|]. split; [exact Hs'|]. split; [reflexivity|].
  split; [exact Hq|]. split.
  - rewrite <- Hm', Hqr. rewrite (Z.mul_comm (Zpos my) q).
    apply new_location_window; lia.
  - destruct (Z_le_gt_dec e' (SpecFloat.emin prec emax)) as [Hem|Hem].
    + unfold SpecFloat.fexp. lia.
    + (* normal range: the quotient has at least prec digits *)
      assert (He'le : e' <= d1 + ex - (d2 + ey) - prec)
        by (subst e'; unfold SpecFloat.fexp in *; lia).
      pose proof (Zdigits2_bounds (Zpos mx) ltac:(lia)) as [D1lo _].
      pose proof (Zdigits2_bounds (Zpos my) ltac:(lia)) as [_ D2hi].
      pose proof (Zdigits2_pos (Zpos mx) ltac:(lia)) as D1pos.
      pose proof (Zdigits2_pos (Zpos my) ltac:(lia)) as D2pos.
      fold d1 in D1lo, D1pos. fold d2 in D2hi, D2pos.
      assert (Hexp : prec - 1 + d2 <= d1 - 1 + s') by (subst s'; lia).
      assert (Hpow : 2 ^ (prec - 1) * 2 ^ d2 <= 2 ^ (d1 - 1) * 2 ^ s').
      { rewrite <- !Z.pow_add_r by lia. apply Z.pow_le_mono_r; lia. }
      assert (Pp : 0 < 2 ^ (prec - 1)) by (apply Z.pow_pos_nonneg; lia).
      assert (Hqbig : 2 ^ (prec - 1) <= q).
      { destruct (Z_le_gt_dec (2 ^ (prec - 1)) q); [assumption|]. exfalso.
        assert (m' < Zpos my * 2 ^ (prec - 1)) by nia.
        assert (Zpos my * 2 ^ (prec - 1) < 2 ^ (prec - 1) * 2 ^ d2) by nia.
        nia. }
      pose proof (Zdigits2_bounds q ltac:(lia)) as [_ Dqhi].
      assert (prec - 1 < Zdigits2 q).
      { apply (Z.pow_lt_mono_r_iff 2); [lia| |lia].
        destruct q; simpl; lia. }
      unfold SpecFloat.fexp. lia.
Qed.
End Ops.

(** ** Rational values *)

Lemma pow2_pos z : (0 < 2 ^ z)%Q.
Proof. apply Qpower_0_lt. reflexivity. Qed.

Lemma pow2_add x y : (2 ^ (x + y) == 2 ^ x * 2 ^ y)%Q.
Proof. apply Qpower_plus. discriminate. Qed.

Lemma pow2_inject n : 0 <= n -> (inject_Z (2 ^ n) == 2 ^ n)%Q.
Proof. intros H. rewrite Zpower_Qpower by assumption. reflexivity. Qed.

Lemma pow2_le x y : x <= y -> (2 ^ x <= 2 ^ y)%Q.
Proof. intros H. apply Qpower_le_compat_l; [assumption|discriminate]. Qed.

Lemma inject_cond_Zopp s m :
  (inject_Z (cond_Zopp s m) == Qsign s * inject_Z m)%Q.
Proof. destruct s; unfold Qsign; simpl; [rewrite inject_Z_opp|]; ring. Qed.

Lemma Zval_shift m e k : 0 <= k -> (Zval (m * 2 ^ k) e == Zval m (e + k))%Q.
Proof.
  intros Hk. unfold Zval. rewrite inject_Z_mult, pow2_inject by assumption.
  rewrite (Z.add_comm e k), pow2_add. ring.
Qed.

Lemma SF2Q_finite s m e :
  (SF2Q (S754_finite s m e) == Zval (cond_Zopp s (Zpos m)) e)%Q.
Proof. reflexivity. Qed.

Lemma Zval_cond_Zopp s m e :
  (Zval (cond_Zopp s m) e == Qsign s * Zval m e)%Q.
Proof. unfold Zval. rewrite inject_cond_Zopp. ring. Qed.

Lemma SF2Q_finish prec emax s m e :
  0 <= m -> is_finite (finish prec emax s m e) = true ->
  (SF2Q (finish prec emax s m e) == Qsign s * Zval m e)%Q.
Proof.
  intros Hm. unfold finish. destruct m as [|p|p]; try lia.
  - intros _. unfold Zval. cbn [SF2Q].
    change (inject_Z 0) with 0%Q. ring.
  - destruct (e <=? emax - prec); [|discriminate]. intros _.
    rewrite SF2Q_finite. apply Zval_cond_Zopp.
Qed.

Lemma Qabs_sign (s : bool) (x : Q) : (Qabs (Qsign s * x) == Qabs x)%Q.
Proof.
  rewrite Qabs_Qmult. destruct s; unfold Qsign;
    [change (Qabs (-1)) with 1%Q|change (Qabs 1) with 1%Q]; ring.
Qed.

Lemma Qsign_xorb a b : (Qsign (xorb a b) == Qsign a * Qsign b)%Q.
Proof. destruct a, b; reflexivity. Qed.

Lemma inject_Z_pos z : 0 < z -> (0 < inject_Z z)%Q.
Proof. intros H. change 0%Q with (inject_Z 0). rewrite <- Zlt_Qlt. exact H. Qed.

Lemma inject_Z_nonneg z : 0 <= z -> (0 <= inject_Z z)%Q.
Proof. intros H. change 0%Q with (inject_Z 0). rewrite <- Zle_Qle. exact H. Qed.

Section HalfUlp.
Variable prec emax : Z.
Hypothesis Hprec : 0 < prec.

(** From the integer bound of [binary_round_aux_spec] to a bound on
    values: the result is within [2^-prec] of the exact value
    [V / c * 2^ez], relatively, or within half the smallest spacing. *)
Lemma half_ulp_bound c V mz ez m'' e'' :
  0 < c -> 0 <= mz -> c * mz <= V -> 0 <= m'' -> ez <= e'' ->
  2 * Z.abs (m'' * (c * 2 ^ (e'' - ez)) - V) <=
    c * 2 ^ Z.max (SpecFloat.fexp prec emax (Zdigits2 mz + ez) - ez) 0 ->
  (ez <= SpecFloat.fexp prec emax (Zdigits2 mz + ez) \/
   m'' * (c * 2 ^ (e'' - ez)) = V) ->
  (Qabs (Zval m'' e'' - inject_Z V / inject_Z c * 2 ^ ez) <=
   inject_Z V / inject_Z c * 2 ^ ez * 2 ^ (- prec) +
   2 ^ (SpecFloat.emin prec emax - 1))%Q.
Proof.
  intros Hc Hmz HV Hm'' Hle Herr Hcase.
  set (K := Z.max (SpecFloat.fexp prec emax (Zdigits2 mz + ez) - ez) 0) in *.
  set (A := m'' * 2 ^ (e'' - ez)).
  set (D := Z.abs (A * c - V)).
  pose proof (pow2_pos ez) as Pez.
  pose proof (pow2_pos (- prec)) as Pprec.
  pose proof (pow2_pos (SpecFloat.emin prec emax - 1)) as Pemin.
  pose proof (inject_Z_pos c Hc) as Pc.
  assert (HVnn : 0 <= V) by nia.
  pose proof (inject_Z_nonneg V HVnn) as PV.
  assert (Hcne : ~ (inject_Z c == 0)%Q) by lra.
  assert (EA : (Zval m'' e'' == inject_Z A * 2 ^ ez)%Q).
  { transitivity (Zval A ez); [|reflexivity].
    unfold A. rewrite Zval_shift by lia.
    replace (ez + (e'' - ez)) with e'' by lia. reflexivity. }
  assert (Ediff : (Zval m'' e'' - inject_Z V / inject_Z c * 2 ^ ez ==
                   inject_Z (A * c - V) / inject_Z c * 2 ^ ez)%Q).
  { rewrite EA. unfold Z.sub. rewrite inject_Z_plus, inject_Z_opp, inject_Z_mult.
    field. exact Hcne. }
  rewrite Ediff.
  assert (Eabs : (Qabs (inject_Z (A * c - V) / inject_Z c * 2 ^ ez) ==
                  inject_Z D / inject_Z c * 2 ^ ez)%Q).
  { rewrite Qabs_Qmult, (Qabs_pos (2 ^ ez)) by lra.
    unfold Qdiv. rewrite Qabs_Qmult.
    rewrite (Qabs_pos (/ inject_Z c)) by (apply Qlt_le_weak, Qinv_lt_0_compat; exact Pc).
    reflexivity. }
  rewrite Eabs.
  assert (HDerr : 2 * D <= c * 2 ^ K).
  { subst D A. replace (m'' * 2 ^ (e'' - ez) * c - V)
      with (m'' * (c * 2 ^ (e'' - ez)) - V) by ring. exact Herr. }
  assert (Hrhs0 : (0 <= inject_Z V / inject_Z c * 2 ^ ez * 2 ^ (- prec))%Q).
  { repeat apply Qmult_le_0_compat; try lra.
    apply Qlt_le_weak, Qinv_lt_0_compat; exact Pc. }
  (* cancel the division by c *)
  apply (Qmult_le_l _ _ (inject_Z c) Pc).
  assert (El : (inject_Z c * (inject_Z D / inject_Z c * 2 ^ ez) ==
                inject_Z D * 2 ^ ez)%Q) by (field; exact Hcne).
  assert (Er : (inject_Z c * (inject_Z V / inject_Z c * 2 ^ ez * 2 ^ (- prec) +
                              2 ^ (SpecFloat.emin prec emax - 1)) ==
                inject_Z V * 2 ^ ez * 2 ^ (- prec) +
                inject_Z c * 2 ^ (SpecFloat.emin prec emax - 1))%Q)
    by (field; exact Hcne).
  rewrite El, Er.
  assert (Hr1 : (0 <= inject_Z V * 2 ^ ez * 2 ^ (- prec))%Q)
    by (repeat apply Qmult_le_0_compat; lra).
  assert (Hr2 : (0 <= inject_Z c * 2 ^ (SpecFloat.emin prec emax - 1))%Q)
    by (apply Qmult_le_0_compat; lra).
  destruct Hcase as [Hn1|Hexact].
  2:{ assert (D0 : D = 0) by (subst D A; nia). rewrite D0.
      change (inject_Z 0) with 0%Q. rewrite Qmult_0_l. lra. }
  assert (HK : K = SpecFloat.fexp prec emax (Zdigits2 mz + ez) - ez)
    by (subst K; lia).
  assert (HKnn : 0 <= K) by lia.
  (* D <= c * 2^(K-1) as rationals *)
  assert (HDq : (inject_Z D * 2 ^ ez <= inject_Z c * 2 ^ (K - 1 + ez))%Q).
  { assert (H2 : (2 * inject_Z D <= inject_Z c * 2 ^ K)%Q).
    { rewrite <- pow2_inject by lia.
      change 2%Q with (inject_Z 2). rewrite <- !inject_Z_mult, <- Zle_Qle.
      exact HDerr. }
    replace (K - 1 + ez) with (K + (-1 + ez)) by lia.
    rewrite pow2_add, pow2_add.
    change (2 ^ (-1))%Q with (1 # 2)%Q.
    assert (HD2 : (inject_Z D <= inject_Z c * 2 ^ K * (1 # 2))%Q) by lra.
    apply Qle_trans with (inject_Z c * 2 ^ K * (1 # 2) * 2 ^ ez)%Q.
    - apply Qmult_le_compat_r; [exact HD2|lra].
    - apply Qle_lteq. right. ring. }
  eapply Qle_trans; [exact HDq|].
  unfold SpecFloat.fexp in HK, Hn1.
  destruct (Z.max_spec (Zdigits2 mz + ez - prec) (SpecFloat.emin prec emax))
    as [[Hlt Hmax]|[Hge Hmax]]; rewrite Hmax in HK, Hn1.
  - replace (K - 1 + ez) with (SpecFloat.emin prec emax - 1) by lia. lra.
  - assert (Hdz : prec <= Zdigits2 mz) by lia.
    assert (Hmzpos : 0 < mz) by (destruct mz; simpl in Hdz; lia).
    pose proof (Zdigits2_bounds mz Hmzpos) as [Dlo _].
    replace (K - 1 + ez) with ((Zdigits2 mz - 1) + (ez + - prec)) by lia.
    rewrite pow2_add, pow2_add.
    assert (Hlo : (inject_Z c * 2 ^ (Zdigits2 mz - 1) <= inject_Z V)%Q).
    { rewrite <- pow2_inject by lia. rewrite <- inject_Z_mult, <- Zle_Qle. nia. }
    assert (Hstep : (inject_Z c * 2 ^ (Zdigits2 mz - 1) * (2 ^ ez * 2 ^ (- prec)) <=
                     inject_Z V * (2 ^ ez * 2 ^ (- prec)))%Q).
    { apply Qmult_le_compat_r; [exact Hlo|].
      apply Qmult_le_0_compat; lra. }
    apply Qle_trans with (inject_Z V * (2 ^ ez * 2 ^ (- prec)))%Q.
    + eapply Qle_trans; [|exact Hstep]. apply Qle_lteq. right. ring.
    + assert (E3 : (inject_Z V * (2 ^ ez * 2 ^ (- prec)) ==
                    inject_Z V * 2 ^ ez * 2 ^ (- prec))%Q) by ring.
      rewrite E3. lra.
Qed.
End HalfUlp.

Lemma finish_mantissa_fits prec emax s m e :
  0 <= m < 2 ^ prec -> mantissa_fits prec (finish prec emax s m e).
Proof.
  intros Hm. unfold finish. destruct m as [|p|p]; simpl; auto.
  destruct (e <=? emax - prec); simpl; auto. lia.
Qed.

Section OpsQ.
Variable prec emax : Z.
Hypothesis Hprec : 0 < prec.

Theorem binary_round_error s m e :
  is_finite (binary_round prec emax s m e) = true ->
  (Qabs (SF2Q (binary_round prec emax s m e) - SF2Q (S754_finite s m e)) <=
   Qabs (SF2Q (S754_finite s m e)) * 2 ^ (- prec) +
   2 ^ (SpecFloat.emin prec emax - 1))%Q.
Proof.
  intros Hfin.
  destruct (binary_round_spec prec emax Hprec s m e)
    as (mz & ez & m'' & e'' & Hmz & Hez & Hmzeq & Hr & Hnn & Hle & Herr & Hn1 & _).
  rewrite Hr in Hfin |- *.
  rewrite (SF2Q_finish prec emax s m'' e'' (proj1 Hnn) Hfin), SF2Q_finite.
  rewrite Zval_cond_Zopp.
  assert (EM : (Zval (Zpos m) e == inject_Z mz / inject_Z 1 * 2 ^ ez)%Q).
  { transitivity (Zval mz ez).
    - rewrite Hmzeq, Zval_shift by lia. replace (ez + (e - ez)) with e by lia.
      reflexivity.
    - unfold Zval. change (inject_Z 1) with 1%Q. field. }
  assert (Ediff : (Qsign s * Zval m'' e'' - Qsign s * Zval (Zpos m) e ==
                   Qsign s * (Zval m'' e'' - Zval (Zpos m) e))%Q) by ring.
  rewrite Ediff, !Qabs_sign, EM.
  assert (Epos : (Qabs (inject_Z mz / inject_Z 1 * 2 ^ ez) ==
                  inject_Z mz / inject_Z 1 * 2 ^ ez)%Q).
  { apply Qabs_pos. change (inject_Z 1) with 1%Q.
    pose proof (pow2_pos ez). pose proof (inject_Z_pos mz Hmz).
    apply Qmult_le_0_compat; [|lra].
    unfold Qdiv. apply Qmult_le_0_compat; [lra|discriminate]. }
  rewrite Epos.
  apply (half_ulp_bound prec emax Hprec 1 mz mz ez m'' e''); lia.
Qed.

Theorem binary_round_exact s m e :
  SpecFloat.fexp prec emax (Zdigits2 (Zpos m) + e) <= e ->
  SpecFloat.fexp prec emax (Zdigits2 (Zpos m) + e) <= emax - prec ->
  is_finite (binary_round prec emax s m e) = true /\
  (SF2Q (binary_round prec emax s m e) == SF2Q (S754_finite s m e))%Q.
Proof.
  intros Hfe Hmax.
  destruct (binary_round_spec prec emax Hprec s m e)
    as (mz & ez & m'' & e'' & Hmz & Hez & Hmzeq & Hr & Hnn & Hle & _ & _ & Hex).
  destruct (Hex Hfe) as (He'' & Hm'' & Hezeq).
  assert (Hfin : is_finite (binary_round prec emax s m e) = true).
  { rewrite Hr, He'', Hm''. unfold finish. destruct mz as [|p|p]; try lia.
    rewrite Hezeq. rewrite (proj2 (Z.leb_le _ _) Hmax). reflexivity. }
  split; [exact Hfin|].
  rewrite Hr in Hfin |- *.
  rewrite (SF2Q_finish prec emax s m'' e'' (proj1 Hnn) Hfin), SF2Q_finite.
  rewrite Zval_cond_Zopp.
  assert (E : (Zval m'' e'' == Zval (Zpos m) e)%Q).
  { rewrite He'', Hm'', Hmzeq. rewrite Zval_shift by lia.
    replace (ez + (e - ez)) with e by lia. reflexivity. }
  rewrite E. reflexivity.
Qed.

Lemma binary_normalize_error M e szero :
  is_finite (binary_normalize prec emax M e szero) = true ->
  (Qabs (SF2Q (binary_normalize prec emax M e szero) - Zval M e) <=
   Qabs (Zval M e) * 2 ^ (- prec) + 2 ^ (SpecFloat.emin prec emax - 1))%Q.
Proof.
  destruct M as [|p|p]; cbn [binary_normalize].
  - intros _. unfold Zval. cbn [SF2Q]. change (inject_Z 0) with 0%Q.
    assert (E : (0 - 0 * 2 ^ e == 0)%Q) by ring. rewrite E.
    assert (E2 : (Qabs (0 * 2 ^ e) == 0)%Q) by (rewrite Qmult_0_l; reflexivity).
    rewrite E2. pose proof (pow2_pos (SpecFloat.emin prec emax - 1)).
    change (Qabs 0) with 0%Q. lra.
  - intros Hfin. apply (binary_round_error false p e Hfin).
  - intros Hfin. apply (binary_round_error true p e Hfin).
Qed.



Lemma SFdiv_mantissa_fits x y : mantissa_fits prec (SFdiv prec emax x y).
Proof.
  destruct x as [sx|sx| |sx mx ex], y as [sy|sy| |sy my ey]; cbn [SFdiv];
    try exact I.
  destruct (SFdiv_core_binary_spec prec emax Hprec mx ex my ey)
    as (q & e' & l & s' & Hcore & Hs' & Hs'eq & Hq & Hwin & Hn1).
  rewrite Hcore.
  destruct (binary_round_aux_spec prec emax Hprec (xorb sx sy) (Zpos my)
              (Zpos mx * 2 ^ s') q e' l ltac:(lia) Hwin)
    as (m'' & e'' & Hr & Hnn & _).
  rewrite Hr. apply finish_mantissa_fits. exact Hnn.
Qed.
End OpsQ.

(** ** float64 and float32 instances *)

Lemma of_Z_exact z :
  Z.abs z < 2 ^ 53 ->
  is_finite (F64.of_Z z) = true /\ (SF2Q (F64.of_Z z) == inject_Z z)%Q.
Proof.
  intros Hz. unfold F64.of_Z.
  destruct z as [|p|p]; cbn [binary_normalize].
  - split; reflexivity.
  - assert (Hd : Zdigits2 (Zpos p) <= 53) by (apply Zdigits2_le_pow; lia).
    assert (Hfe : SpecFloat.fexp F64.prec F64.emax (Zdigits2 (Zpos p) + 0) <= 0)
      by (unfold SpecFloat.fexp, SpecFloat.emin, F64.prec, F64.emax; lia).
    assert (Hmax : SpecFloat.fexp F64.prec F64.emax (Zdigits2 (Zpos p) + 0) <=
                   F64.emax - F64.prec)
      by (unfold SpecFloat.fexp, SpecFloat.emin, F64.prec, F64.emax in *; lia).
    destruct (binary_round_exact F64.prec F64.emax eq_refl false p 0 Hfe Hmax)
      as [Hfin Hval].
    split; [exact Hfin|]. rewrite Hval.
    cbn [SF2Q cond_Zopp]. change (2 ^ 0)%Q with 1%Q. ring.
  - assert (Hd : Zdigits2 (Zpos p) <= 53) by (apply Zdigits2_le_pow; lia).
    assert (Hfe : SpecFloat.fexp F64.prec F64.emax (Zdigits2 (Zpos p) + 0) <= 0)
      by (unfold SpecFloat.fexp, SpecFloat.emin, F64.prec, F64.emax; lia).
    assert (Hmax : SpecFloat.fexp F64.prec F64.emax (Zdigits2 (Zpos p) + 0) <=
                   F64.emax - F64.prec)
      by (unfold SpecFloat.fexp, SpecFloat.emin, F64.prec, F64.emax in *; lia).
    destruct (binary_round_exact F64.prec F64.emax eq_refl true p 0 Hfe Hmax)
      as [Hfin Hval].
    split; [exact Hfin|]. rewrite Hval.
    cbn [SF2Q cond_Zopp]. change (2 ^ 0)%Q with 1%Q.
    change (- Zpos p) with (Zneg p). ring.
Qed.

Lemma Qfloor_Zval_neg a e :
  e < 0 -> Qfloor (Zval a e) = a / 2 ^ (- e).
Proof.
  intros He. unfold Zval.
  assert (P : 0 < 2 ^ (- e)) by (apply Z.pow_pos_nonneg; lia).
  assert (E : (inject_Z a * 2 ^ e == inject_Z a / inject_Z (2 ^ (- e)))%Q).
  { replace e with (- (- e)) at 1 by lia. rewrite Qpower_opp.
    rewrite pow2_inject by lia. reflexivity. }
  rewrite E. symmetry. apply Zdiv_Qdiv.
Qed.

Lemma Qfloor_Zval_nonneg a e :
  0 <= e -> (Zval a e == inject_Z (Qfloor (Zval a e)))%Q.
Proof.
  intros He. unfold Zval.
  assert (E : (inject_Z a * 2 ^ e == inject_Z (a * 2 ^ e))%Q)
    by (rewrite inject_Z_mult, pow2_inject by lia; reflexivity).
  rewrite E, Qfloor_Z. reflexivity.
Qed.

(** [np.floor] returns the float of the integer part. *)
Lemma np_floor_correct x :
  is_finite x = true -> mantissa_fits 53 x ->
  is_finite (np_floor x) = true /\
  (SF2Q (np_floor x) == inject_Z (Qfloor (SF2Q x)))%Q.
Proof.
  destruct x as [s0| | |s m e]; try discriminate; intros _ Hm.
  - split; reflexivity.
  - cbn [np_floor mantissa_fits] in *. destruct (Z.leb_spec 0 e) as [He|He].
    + split; [reflexivity|]. rewrite SF2Q_finite. apply Qfloor_Zval_nonneg. exact He.
    + unfold Zfloor_scaled. rewrite (proj2 (Z.leb_gt 0 e) He).
      assert (P : 0 < 2 ^ (- e)) by (apply Z.pow_pos_nonneg; lia).
      assert (Hz : Z.abs (cond_Zopp s (Zpos m) / 2 ^ (- e)) < 2 ^ 53).
      { destruct s; cbn [cond_Zopp].
        - assert (- Zpos m <= - Zpos m / 2 ^ (- e) <= 0).
          { split.
            - apply Z.div_le_lower_bound; [lia|]. nia.
            - apply Z.div_le_upper_bound; [lia|]. nia. }
          lia.
        - assert (0 <= Zpos m / 2 ^ (- e) <= Zpos m).
          { split.
            - apply Z.div_pos; lia.
            - apply Z.div_le_upper_bound; [lia|]. nia. }
          lia. }
      destruct (of_Z_exact _ Hz) as [Hfin Hval].
      split; [exact Hfin|].
      rewrite Hval, SF2Q_finite, Qfloor_Zval_neg by assumption. reflexivity.
Qed.

Lemma np_floor_finite_inv x : is_finite (np_floor x) = true -> is_finite x = true.
Proof. destruct x; simpl; auto. Qed.

Lemma mul_finite_inv x y :
  is_finite (F64.mul x y) = true -> is_finite x = true /\ is_finite y = true.
Proof. destruct x, y; simpl; auto; discriminate. Qed.


Lemma leb_zero_false_pos base :
  is_finite base = true -> F64.leb base F64.zero = false ->
  (0 < SF2Q base)%Q /\ is_zero base = false.
Proof.
  destruct base as [s0|s0| |s m e]; intros Hfin Hleb; try discriminate.
  destruct s; [discriminate|]. split; [|reflexivity].
  rewrite SF2Q_finite. unfold Zval. cbn [cond_Zopp].
  apply Qmult_lt_0_compat; [reflexivity|apply pow2_pos].
Qed.


Lemma SF2Q_negb s m e :
  (SF2Q (S754_finite (negb s) m e) == - SF2Q (S754_finite s m e))%Q.
Proof.
  rewrite !SF2Q_finite, !Zval_cond_Zopp. destruct s; unfold Qsign; cbn [negb]; ring.
Qed.

Lemma Zval_aligned s mx ex ez :
  ez <= ex ->
  (Zval (cond_Zopp s (Zpos (fst (shl_align mx ex ez)))) ez ==
   SF2Q (S754_finite s mx ex))%Q.
Proof.
  intros Hle. pose proof (shl_align_spec mx ex ez) as H.
  destruct (shl_align mx ex ez) as [mz ez']. destruct H as [Hez Hmz].
  cbn [fst]. rewrite SF2Q_finite, !Zval_cond_Zopp, Hmz.
  rewrite Zval_shift by lia.
  replace (ez + (ex - ez')) with ex by lia. reflexivity.
Qed.

Lemma Qabs_zero_bound (x y t : Q) :
  (0 < t)%Q -> (x == y)%Q -> forall u, (Qabs (x - y) <= Qabs u * 2 ^ (- 53) + t)%Q.
Proof.
  intros Ht E u. rewrite E.
  assert (E0 : (y - y == 0)%Q) by ring. rewrite E0. change (Qabs 0) with 0%Q.
  pose proof (Qabs_nonneg u). pose proof (pow2_pos (- 53)).
  assert ((0 <= Qabs u * 2 ^ (- 53))%Q)
    by (apply Qmult_le_0_compat; [assumption|apply Qlt_le_weak; assumption]).
  lra.
Qed.

Lemma sub_error g s :
  is_finite (F64.sub g s) = true ->
  (Qabs (SF2Q (F64.sub g s) - (SF2Q g - SF2Q s)) <=
   Qabs (SF2Q g - SF2Q s) * 2 ^ (- 53) + 2 ^ (- 1075))%Q.
Proof.
  pose proof (pow2_pos (- 1075)) as Pt.
  destruct g as [sx|sx| |sx mx ex], s as [sy|sy| |sy my ey];
    try (destruct sx; discriminate); try (destruct sy; discriminate);
    try (destruct sx, sy; discriminate); try discriminate.
  - intros _. apply Qabs_zero_bound; [assumption|].
    cbn [F64.sub SFsub]. rewrite SF2Q_negb. cbn [SF2Q]. ring.
  - intros _. apply Qabs_zero_bound; [assumption|].
    cbn [F64.sub SFsub SF2Q]. ring.
  - unfold F64.sub, SFsub. intros Hfin.
    set (ez := Z.min ex ey) in *.
    set (M := cond_Zopp sx (Zpos (fst (shl_align mx ex ez))) -
              cond_Zopp sy (Zpos (fst (shl_align my ey ez)))) in *.
    assert (EM : (Zval M ez == SF2Q (S754_finite sx mx ex) - SF2Q (S754_finite sy my ey))%Q).
    { rewrite <- (Zval_aligned sx mx ex ez), <- (Zval_aligned sy my ey ez) by (subst ez; lia).
      unfold M, Zval, Z.sub. rewrite inject_Z_plus, inject_Z_opp. ring. }
    rewrite <- EM.
    apply (binary_normalize_error F64.prec F64.emax eq_refl M ez false Hfin).
Qed.

Lemma of_f64_finite d : is_finite (F32.of_f64 d) = true -> is_finite d = true.
Proof. destruct d; simpl; auto. Qed.

Lemma of_f64_error d :
  is_finite (F32.of_f64 d) = true ->
  (Qabs (SF2Q (F32.of_f64 d) - SF2Q d) <= Qabs (SF2Q d) * 2 ^ (- 24) + 2 ^ (- 150))%Q.
Proof.
  destruct d as [s0|s0| |s m e]; try discriminate.
  - intros Hfin. apply (binary_round_error F32.prec F32.emax eq_refl s m e Hfin).
Qed.

Lemma stored_local_error shift g :
  is_finite (stored_local shift g) = true ->
  (Qabs (SF2Q (stored_local shift g) + SF2Q shift - SF2Q g) <=
   storage_tolerance shift g)%Q.
Proof.
  unfold stored_local, storage_tolerance. intros Hfin.
  pose proof (of_f64_error _ Hfin) as H1.
  pose proof (sub_error g shift (of_f64_finite _ Hfin)) as H2.
  set (l := SF2Q (F32.of_f64 (F64.sub g shift))) in *.
  set (d := SF2Q (F64.sub g shift)) in *.
  assert (E : (l + SF2Q shift - SF2Q g == (l - d) + (d - (SF2Q g - SF2Q shift)))%Q) by ring.
  rewrite E.
  eapply Qle_trans; [apply Qabs_triangle|].
  apply Qplus_le_compat; assumption.
Qed.

(* ===================================================================== *)
(** * 14. The shift selector: auto mode and the stored precision *)
(* ===================================================================== *)





Lemma storage_tolerance_small shift g :
  (Qabs (SF2Q (F64.sub g shift)) <= 100000)%Q ->
  (Qabs (SF2Q g - SF2Q shift) <= 100000)%Q ->
  (storage_tolerance shift g <= 1 # 100)%Q.
Proof.
  intros Hd Hg. unfold storage_tolerance.
  set (d := Qabs (SF2Q (F64.sub g shift))) in *.
  set (x := Qabs (SF2Q g - SF2Q shift)) in *.
  assert (Hd0 : (0 <= d)%Q) by apply Qabs_nonneg.
  assert (Hx0 : (0 <= x)%Q) by apply Qabs_nonneg.
  pose proof (pow2_le (-150) (-30) ltac:(lia)) as H150.
  pose proof (pow2_le (-1075) (-30) ltac:(lia)) as H1075.
  pose proof (pow2_le (-53) (-30) ltac:(lia)) as H53.
  pose proof (pow2_pos (-53)) as P53.
  assert (E24 : (2 ^ (-24) == 1 # 16777216)%Q) by reflexivity.
  assert (E30 : (2 ^ (-30) == 1 # 1073741824)%Q) by reflexivity.
  rewrite E30 in H150, H1075, H53. rewrite E24.
  assert (Hx53 : (x * 2 ^ (-53) <= 100000 * (1 # 1073741824))%Q).
  { apply Qle_trans with (x * (1 # 1073741824))%Q.
    - rewrite (Qmult_comm x), (Qmult_comm x (1 # 1073741824)).
      apply Qmult_le_compat_r; assumption.
    - apply Qmult_le_compat_r; [assumption|discriminate]. }
  lra.
Qed.

Lemma localize_columns vertex mode ms b out shift locals :
  localize vertex mode ms b = Ok (out, shift, locals) ->
  exists cx cy cz,
    get_field vertex "x" = Some cx /\ get_field vertex "y" = Some cy /\
    get_field vertex "z" = Some cz /\
    let pg := vstack_T (astype_float64 cx) (astype_float64 cy)
                       (astype_float64 cz) in
    pg <> [] /\
    get_field out "x" =
      Some (ColF4 (map (fun p => stored_local (vx shift) (vx p)) pg)) /\
    get_field out "y" =
      Some (ColF4 (map (fun p => stored_local (vy shift) (vy p)) pg)) /\
    get_field out "z" =
      Some (ColF4 (map (fun p => stored_local (vz shift) (vz p)) pg)).
Proof.
  intros Hrun.
  apply localize_ok_inv in Hrun
    as (cx & cy & cz & Hx & Hy & Hz & Hpg & Hshift & -> & ->).
  exists cx, cy, cz. repeat (split; [assumption|]).
  rewrite !get_field_build by (eapply get_field_Some_name; eassumption).
  unfold stored_column, stored_local.
  cbn [String.eqb Ascii.eqb Bool.eqb]. rewrite !map_map.
  cbn [sub_shift vx vy vz]. auto.
Qed.

(** C3 (as the code has it): the stored coordinates are
    [float32 (global - shift)], the subtraction being done in float64; for
    every point and axis whose stored value is finite,
    [|local + shift - global|] is at most [2^-24] of the float64 local
    coordinate plus [2^-53] of the exact difference (plus the underflow
    terms [2^-150] and [2^-1075]): half a unit in the last place of
    float32.  For local coordinates up to 100 km that is below 1e-2. *)
Theorem stored_local_plus_shift_near_global
    (vertex : ply_element) (shift_mode : string)
    (manual_shift : option (list spec_float)) (auto_base : spec_float)
    (out : ply_element) (shift : vec3) (locals : list vec3) :
  localize vertex shift_mode manual_shift auto_base = Ok (out, shift, locals) ->
  exists cx cy cz,
    get_field vertex "x" = Some cx /\ get_field vertex "y" = Some cy /\
    get_field vertex "z" = Some cz /\
    let points_global :=
      vstack_T (astype_float64 cx) (astype_float64 cy) (astype_float64 cz) in
    points_global <> [] /\
    get_field out "x" =
      Some (ColF4 (map (fun p => stored_local (vx shift) (vx p)) points_global)) /\
    get_field out "y" =
      Some (ColF4 (map (fun p => stored_local (vy shift) (vy p)) points_global)) /\
    get_field out "z" =
      Some (ColF4 (map (fun p => stored_local (vz shift) (vz p)) points_global)) /\
    forall (axis : vec3 -> spec_float) p,
      In p points_global ->
      is_finite (stored_local (axis shift) (axis p)) = true ->
      (Qabs (SF2Q (stored_local (axis shift) (axis p)) + SF2Q (axis shift)
             - SF2Q (axis p)) <= storage_tolerance (axis shift) (axis p))%Q /\
      ((Qabs (SF2Q (F64.sub (axis p) (axis shift))) <= 100000)%Q ->
       (Qabs (SF2Q (axis p) - SF2Q (axis shift)) <= 100000)%Q ->
       (Qabs (SF2Q (stored_local (axis shift) (axis p)) + SF2Q (axis shift)
              - SF2Q (axis p)) <= 1 # 100)%Q).
Proof.
  intros Hrun.
  destruct (localize_columns _ _ _ _ _ _ _ Hrun)
    as (cx & cy & cz & Hx & Hy & Hz & Hpg & Gx & Gy & Gz).
  exists cx, cy, cz. repeat (split; [assumption|]).
  intros axis p _ Hfin.
  pose proof (stored_local_error (axis shift) (axis p) Hfin) as Herr.
  split; [exact Herr|].
  intros Hd Hg. eapply Qle_trans; [exact Herr|].
  apply storage_tolerance_small; assumption.
Qed.

Lemma stored_local_plus_shift_near_global_witness :
  exists out shift locals,
    localize Sample.vertex1 "auto" None Sample.base1000 = Ok (out, shift, locals) /\
    get_field out "x" = Some (ColF4 [stored_local (vx shift) SampleAuto.x17]) /\
    (Qabs (SF2Q (stored_local (vx shift) SampleAuto.x17) + SF2Q (vx shift)
           - SF2Q SampleAuto.x17) <= 1 # 100)%Q.
Proof.
  destruct (localize Sample.vertex1 "auto" None Sample.base1000)
    as [[[out shift] locals]|e] eqn:Hrun; [|vm_compute in Hrun; discriminate].
  destruct (stored_local_plus_shift_near_global Sample.vertex1 "auto" None
              Sample.base1000 out shift locals Hrun)
    as (cx & cy & cz & Hx & Hy & Hz & Hpg & Gx & _ & _ & Hall).
  injection Hx as <-. injection Hy as <-. injection Hz as <-.
  exists out, shift, locals. split; [reflexivity|].
  split; [exact Gx|].
  assert (E : Ok (out, shift, locals) =
              localize Sample.vertex1 "auto" None Sample.base1000)
    by (symmetry; exact Hrun).
  vm_compute in E. injection E as _ -> _.
  destruct (Hall vx (Vec3 SampleAuto.x17 (F64.lit 25 1) F64.zero)) as [_ Hsmall].
  - left. reflexivity.
  - vm_compute. reflexivity.
  - apply Hsmall; vm_compute; discriminate.
Defined.

(** C3 (the claim as stated fails): a finite global coordinate of 1e39
    with a zero manual shift is stored as +infinity, so no tolerance
    relates [local + shift] to the global value. *)
Lemma stored_local_overflows_float32 :
  exists out shift locals,
    localize SampleHuge.vertex "manual"
             (Some [F64.zero; F64.zero; F64.zero]) Sample.base1000 =
      Ok (out, shift, locals) /\
    shift = vec3_zero /\
    get_field out "x" = Some (ColF4 [S754_infinity false]) /\
    is_finite (F64.lit 1000000000000000000000000000000000000000 1) = true /\
    is_finite (S754_infinity false) = false.
Proof.
  do 3 eexists. split; [vm_compute; reflexivity|].
  repeat split; reflexivity.
Qed.

(* ===================================================================== *)
(** * 15. ply_to_local.py: what a run writes, and its exit status *)
(* ===================================================================== *)

(** ** What a run writes *)



(** The two ways [convert_ply_to_local] ends: an exception with the file
    system untouched, or the output array written, and the side-car after
    it when asked for. *)
Lemma convert_cases abspath splitext_root input_ply output_ply shift_mode
    manual_shift save_origin_json auto_base fs :
  let run := convert_ply_to_local abspath splitext_root input_ply output_ply
               shift_mode manual_shift save_origin_json auto_base fs in
  (exists e, run = (Raise e, fs) /\
     forall text elements vertex out,
       fs !! input_ply = Some (PlyFile text elements) ->
       get_element elements "vertex" = Ok vertex ->
       localize vertex shift_mode manual_shift auto_base <> Ok out)
  \/
  (exists text elements vertex vertex_array shift locals,
     fs !! input_ply = Some (PlyFile text elements) /\
     get_element elements "vertex" = Ok vertex /\
     localize vertex shift_mode manual_shift auto_base =
       Ok (vertex_array, shift, locals) /\
     let fs1 :=
       <[ output_ply := PlyFile false [("vertex"%string, vertex_array)] ]> fs in
     run =
     (Ok shift,
      if save_origin_json then
        <[ origin_json_path splitext_root output_ply :=
             JsonFile
               {| shift_global := shift;
                  od_shift_mode := shift_mode;
                  od_manual_shift :=
                    if String.eqb shift_mode "manual" then manual_shift
                    else None;
                  od_auto_base := auto_base;
                  od_input_ply := abspath input_ply;
                  od_output_ply := abspath output_ply;
                  od_note :=
                    "Restoration formula: global = local + shift_global" |} ]>
          fs1
      else fs1)).
Proof.
  cbv zeta. unfold convert_ply_to_local, PlyData_read, origin_json_path.
  destruct (fs !! input_ply) as [[text elements|od|las|]|] eqn:Hin;
    cbn [mbind result_bind];
    try (left; eexists; split; [reflexivity|]; intros; congruence).
  destruct (get_element elements "vertex") as [vertex|e] eqn:Hv;
    cbn [mbind result_bind];
    [|left; eexists; split; [reflexivity|]; intros; congruence].
  destruct (localize vertex shift_mode manual_shift auto_base)
    as [[[arr shift] locals]|e] eqn:Hl.
  - right. exists text, elements, vertex, arr, shift, locals.
    repeat (split; [first [assumption|reflexivity]|]). reflexivity.
  - left. eexists; split; [reflexivity|]. intros; congruence.
Qed.



(** ** The output array keeps the shape of the input *)

Lemma stored_column_len vertex locals name :
  wf_element vertex -> length locals = num_rows vertex ->
  In name (prop_names_of vertex) ->
  col_len (stored_column vertex locals name) = num_rows vertex.
Proof.
  intros Hwf Hlen Hin. unfold stored_column.
  destruct (String.eqb name "x"); [simpl; rewrite length_map; exact Hlen|].
  destruct (String.eqb name "y"); [simpl; rewrite length_map; exact Hlen|].
  destruct (String.eqb name "z"); [simpl; rewrite length_map; exact Hlen|].
  destruct (get_field vertex name) as [c|] eqn:E.
  - apply wf_col_len; [assumption|]. eapply get_field_In; eassumption.
  - apply get_field_None_name in E. contradiction.
Qed.

Lemma build_vertex_array_wf vertex locals :
  wf_element vertex -> length locals = num_rows vertex ->
  wf_element (build_vertex_array vertex locals) /\
  num_rows (build_vertex_array vertex locals) = num_rows vertex.
Proof.
  intros Hwf Hlen.
  assert (Hcol : forall c, In c (map snd (build_vertex_array vertex locals)) ->
                           col_len c = num_rows vertex).
  { intros c Hc. rewrite build_vertex_array_eq, map_map in Hc. cbn [snd] in Hc.
    apply in_map_iff in Hc as (name & <- & Hname).
    apply stored_column_len; assumption. }
  split; [split|].
  - rewrite prop_names_build. apply Hwf.
  - intros c1 c2 H1 H2. rewrite (Hcol c1 H1), (Hcol c2 H2). reflexivity.
  - destruct (build_vertex_array vertex locals) as [|[n c] tl] eqn:E.
    + rewrite build_vertex_array_eq in E. apply map_eq_nil in E.
      unfold prop_names_of in E. apply map_eq_nil in E. subst vertex. reflexivity.
    + cbn [num_rows]. apply Hcol. left. reflexivity.
Qed.

Lemma points_global_length vertex cx cy cz :
  wf_element vertex ->
  get_field vertex "x" = Some cx -> get_field vertex "y" = Some cy ->
  get_field vertex "z" = Some cz ->
  length (vstack_T (astype_float64 cx) (astype_float64 cy) (astype_float64 cz)) =
  num_rows vertex.
Proof.
  intros Hwf Hx Hy Hz.
  destruct (field_float64_wf _ _ _ Hwf Hx) as [_ Lx].
  destruct (field_float64_wf _ _ _ Hwf Hy) as [_ Ly].
  destruct (field_float64_wf _ _ _ Hwf Hz) as [_ Lz].
  rewrite vstack_T_length; congruence.
Qed.

Lemma localize_shape vertex mode ms b out shift locals :
  wf_element vertex ->
  localize vertex mode ms b = Ok (out, shift, locals) ->
  wf_element out /\ num_rows out = num_rows vertex /\
  length locals = num_rows vertex /\ num_rows vertex <> 0%nat.
Proof.
  intros Hwf Hrun.
  apply localize_ok_inv in Hrun
    as (cx & cy & cz & Hx & Hy & Hz & Hpg & _ & -> & ->).
  pose proof (points_global_length vertex cx cy cz Hwf Hx Hy Hz) as Hlen.
  assert (Hl : length (map (sub_shift shift)
                 (vstack_T (astype_float64 cx) (astype_float64 cy)
                    (astype_float64 cz))) = num_rows vertex)
    by (rewrite length_map; exact Hlen).
  destruct (build_vertex_array_wf vertex _ Hwf Hl) as [W N].
  repeat split; try assumption; try apply W.
  intros H0. rewrite H0 in Hlen. apply Hpg.
  destruct (vstack_T _ _ _); [reflexivity|discriminate].
Qed.

(** X2: the output array of a successful run is a structured array
    again: the field names are distinct, every column, converted or
    copied, has as many records as the input, and a field exists in the
    output exactly when it exists in the input. *)
Theorem localize_keeps_records
    (vertex : ply_element) (shift_mode : string)
    (manual_shift : option (list spec_float)) (auto_base : spec_float)
    (out : ply_element) (shift : vec3) (locals : list vec3) :
  wf_element vertex ->
  localize vertex shift_mode manual_shift auto_base = Ok (out, shift, locals) ->
  wf_element out /\
  num_rows out = num_rows vertex /\
  (forall name c, get_field out name = Some c -> col_len c = num_rows vertex) /\
  (forall name, get_field out name = None <-> get_field vertex name = None).
Proof.
  intros Hwf Hrun.
  destruct (localize_shape _ _ _ _ _ _ _ Hwf Hrun) as (W & N & _ & _).
  split; [exact W|]. split; [exact N|]. split.
  - intros name c Hc. rewrite <- N. apply wf_col_len; [exact W|].
    eapply get_field_In; eassumption.
  - intros name. rewrite !get_field_None_name.
    apply localize_ok_inv in Hrun as (? & ? & ? & _ & _ & _ & _ & _ & _ & ->).
    rewrite prop_names_build. reflexivity.
Qed.

Lemma localize_keeps_records_witness :
  exists out shift locals,
    localize Sample.vertex1 "first_point" None Sample.base1000 =
      Ok (out, shift, locals) /\
    wf_element out /\ num_rows out = 1%nat /\
    get_field out "green" = None.
Proof.
  destruct (localize Sample.vertex1 "first_point" None Sample.base1000)
    as [[[out shift] locals]|e] eqn:Hrun; [|vm_compute in Hrun; discriminate].
  assert (Hwf : wf_element Sample.vertex1) by solve_wf_element.
  destruct (localize_keeps_records Sample.vertex1 "first_point" None
              Sample.base1000 out shift locals Hwf Hrun) as (W & N & _ & Hnone).
  exists out, shift, locals. split; [reflexivity|].
  split; [exact W|]. split; [exact N|]. apply Hnone. reflexivity.
Defined.

(** ** The exit status of ply_to_local.py *)

Lemma path_exists_spec (fs : filesystem) p :
  path_exists fs p = true <-> is_Some (fs !! p).
Proof. unfold path_exists. apply bool_decide_eq_true. Qed.

Section MainFacts.
Variable abspath splitext_root basename dirname : string -> string.
Variable path_join : string -> string -> string.

#[local] Abbreviation main' :=
  (main abspath splitext_root basename dirname path_join).
#[local] Abbreviation output_of' :=
  (output_of splitext_root basename dirname path_join).

(** X3: [main] ends with status 0, 1 or 2.  It ends with 2 exactly when
    [--force] is absent and the output path exists.  Whenever the status
    is not 0 the file system is as it was; with status 0 the output path
    exists afterwards and either [--force] was given or the path did not
    exist before. *)
Theorem main_overwrites_only_when_forced (args : Namespace) (fs : filesystem) :
  let code := fst (main' args fs) in
  let fs' := snd (main' args fs) in
  (code = 0 \/ code = 1 \/ code = 2) /\
  (code = 2 <->
   args_force args = false /\ is_Some (fs !! output_of' args)) /\
  (code <> 0 -> fs' = fs) /\
  (code = 0 ->
   is_Some (fs' !! output_of' args) /\
   (args_force args = true \/ fs !! output_of' args = None)).
Proof.
  cbv zeta. unfold main.
  destruct (negb (args_force args) && path_exists fs (output_of' args))
    eqn:Hrefuse.
  - apply andb_prop in Hrefuse as [Hf He].
    apply negb_true_iff in Hf. apply path_exists_spec in He.
    cbn [fst snd]. repeat split; auto; try discriminate.
  - assert (Hnot : ~ (args_force args = false /\
                      is_Some (fs !! output_of' args))).
    { intros [Hf He]. apply path_exists_spec in He.
      rewrite Hf in Hrefuse. cbn [negb andb] in Hrefuse. congruence. }
    assert (Hfree : args_force args = true \/ fs !! output_of' args = None).
    { destruct (args_force args); [left; reflexivity|right].
      destruct (fs !! output_of' args) eqn:E; [|reflexivity].
      exfalso. apply Hnot. split; [reflexivity|]. eauto. }
    destruct (convert_cases abspath splitext_root (args_input args)
                (output_of' args) (args_mode args)
                (manual_shift_arg (args_manual_shift args))
                (negb (args_no_json args)) (args_auto_base args) fs)
      as [(e & -> & _)|(text & elements & vertex & arr & shift & locals &
                        _ & _ & _ & Hfs)].
    + cbn [fst snd]. repeat split; auto; try discriminate; try contradiction.
    + cbv zeta in Hfs. rewrite Hfs. cbn [fst snd].
      split; [auto|]. split; [split; [discriminate|contradiction]|].
      split; [intros H; contradiction|]. intros _. split; [|exact Hfree].
      unfold filesystem in *.
      destruct (negb (args_no_json args)); cbv iota.
      * apply lookup_insert_is_Some'. right.
        rewrite lookup_insert_eq. eauto.
      * rewrite lookup_insert_eq. eauto.
Qed.

(** With the three coordinate fields and at least one record the
    selector fails exactly as [compute_shift] does. *)
Lemma localize_raised_iff vertex mode ms b :
  wf_element vertex -> has_xyz vertex = true -> num_rows vertex <> 0%nat ->
  raised (localize vertex mode ms b) = true <->
  (mode <> "auto" /\ mode <> "manual" /\ mode <> "first_point")%string
  \/ (mode = "auto"%string /\ F64.leb b F64.zero = true)
  \/ (mode = "manual"%string /\ forall l, ms = Some l -> length l <> 3%nat).
Proof.
  intros Hwf Hxyz Hn.
  apply has_xyz_true in Hxyz as (cx & cy & cz & Hx & Hy & Hz).
  pose proof (points_global_length vertex cx cy cz Hwf Hx Hy Hz) as Hlen.
  set (x := astype_float64 cx) in *. set (y := astype_float64 cy) in *.
  set (z := astype_float64 cz) in *. set (pg := vstack_T x y z) in *.
  assert (Hpg : pg <> []) by (intros E; rewrite E in Hlen; simpl in Hlen; congruence).
  rewrite <- (compute_shift_raises_iff x y z pg mode ms b Hpg).
  destruct (compute_shift x y z pg mode ms b) as [shift|e] eqn:Hs.
  - rewrite (localize_ok vertex mode ms b cx cy cz shift Hx Hy Hz Hpg Hs).
    reflexivity.
  - unfold localize, field_float64.
    rewrite bool_decide_eq_true_2.
    2:{ apply required_subseteq.
        repeat split; eapply get_field_Some_name; eassumption. }
    cbn [negb]. rewrite Hx, Hy, Hz. cbn [mbind result_bind].
    fold x y z. fold pg.
    destruct pg as [|p tl] eqn:Ep; [congruence|]. cbn [length Nat.eqb].
    rewrite Hs. reflexivity.
Qed.

(** X4: for arguments as [argparse] delivers them (a mode among the three
    choices, [--manual-shift] absent or with three values) and a readable
    PLY whose vertex element has x, y, z and at least one record, the
    exit status is 2 when the output exists and [--force] is absent,
    otherwise 1 when the mode is auto with [auto_base <= 0] or manual
    without [--manual-shift], and 0 in every other case. *)
Theorem main_exit_status (args : Namespace) (fs : filesystem)
    (text : bool) (elements : list (string * ply_element))
    (vertex : ply_element) :
  (args_mode args = "auto" \/ args_mode args = "manual" \/
   args_mode args = "first_point")%string ->
  (forall l, args_manual_shift args = Some l -> length l = 3%nat) ->
  fs !! args_input args = Some (PlyFile text elements) ->
  get_element elements "vertex" = Ok vertex ->
  wf_element vertex -> has_xyz vertex = true -> num_rows vertex <> 0%nat ->
  let refused :=
    negb (args_force args) && path_exists fs (output_of' args) in
  let bad_parameter :=
    (String.eqb (args_mode args) "auto" &&
     F64.leb (args_auto_base args) F64.zero)
    || (String.eqb (args_mode args) "manual" &&
        match args_manual_shift args with None => true | Some _ => false end) in
  fst (main' args fs) =
  if refused then 2 else if bad_parameter then 1 else 0.
Proof.
  intros Hmode Hms Hin Hv Hwf Hxyz Hn. cbv zeta. unfold main.
  destruct (negb (args_force args) && path_exists fs (output_of' args));
    [reflexivity|].
  pose proof (localize_raised_iff vertex (args_mode args)
                (manual_shift_arg (args_manual_shift args))
                (args_auto_base args) Hwf Hxyz Hn) as Hiff.
  unfold convert_ply_to_local, PlyData_read. rewrite Hin.
  cbn [mbind result_bind]. rewrite Hv. cbn [mbind result_bind].
  destruct (localize vertex (args_mode args)
              (manual_shift_arg (args_manual_shift args))
              (args_auto_base args)) as [[[arr shift] locals]|e] eqn:Hl;
    cbn [raised fst] in *.
  - (* the selector returns: no bad parameter *)
    destruct (String.eqb_spec (args_mode args) "auto") as [Ea|Ea];
      cbn [andb orb].
    + destruct (F64.leb (args_auto_base args) F64.zero) eqn:Hb; [|
        destruct (String.eqb_spec (args_mode args) "manual"); [congruence|reflexivity]].
      exfalso. assert (false = true); [|discriminate].
      apply Hiff. right; left. auto.
    + destruct (String.eqb_spec (args_mode args) "manual") as [Em|Em];
        cbn [andb]; [|reflexivity].
      destruct (args_manual_shift args) as [l|] eqn:El; [reflexivity|].
      exfalso. assert (false = true); [|discriminate].
      apply Hiff. right; right. split; [assumption|]. cbn. discriminate.
  - (* the selector raises: a bad parameter *)
    destruct (proj1 Hiff eq_refl) as [(Ha & Hm & Hf)|[(Ha & Hb)|(Hm & Hl3)]].
    + exfalso. destruct Hmode as [?|[?|?]]; congruence.
    + rewrite Ha, Hb. reflexivity.
    + rewrite Hm. cbn [String.eqb Ascii.eqb Bool.eqb andb orb].
      destruct (args_manual_shift args) as [l|] eqn:El; [|reflexivity].
      exfalso. pose proof (Hms l eq_refl) as H3.
      destruct l as [|a l']; [discriminate|].
      exact (Hl3 (a :: l') eq_refl H3).
Qed.
End MainFacts.

Lemma main_exit_status_witness :
  fst (main (fun p => p) (fun p => p) (fun p => p) (fun _ => ""%string)
         (fun d f => (d ++ "/" ++ f)%string)
         (MkNamespace "in.ply" None "manual" None Sample.base1000 false false)
         (Sample.fs_with Sample.vertex1)) = 1.
Proof.
  assert (Hwf : wf_element Sample.vertex1) by solve_wf_element.
  rewrite (main_exit_status (fun p => p) (fun p => p) (fun p => p)
             (fun _ => ""%string) (fun d f => (d ++ "/" ++ f)%string)
             (MkNamespace "in.ply" None "manual" None Sample.base1000 false false)
             (Sample.fs_with Sample.vertex1) true
             [("vertex"%string, Sample.vertex1)] Sample.vertex1).
  - vm_compute. reflexivity.
  - right; left; reflexivity.
  - discriminate.
  - apply lookup_singleton_eq.
  - reflexivity.
  - exact Hwf.
  - reflexivity.
  - simpl. discriminate.
Defined.

Lemma has_xyz_false_not_required vertex :
  has_xyz vertex = false ->
  ~ required ⊆ (list_to_set (prop_names_of vertex) : gset string).
Proof.
  intros Hx Hsub. apply required_subseteq in Hsub as (Ix & Iy & Iz).
  unfold has_xyz in Hx.
  destruct (get_field vertex "x") eqn:Ex;
    [|apply get_field_None_name in Ex; contradiction].
  destruct (get_field vertex "y") eqn:Ey;
    [|apply get_field_None_name in Ey; contradiction].
  destruct (get_field vertex "z") eqn:Ez;
    [|apply get_field_None_name in Ez; contradiction].
  discriminate.
Qed.

Lemma localize_bad_input vertex mode ms b :
  has_xyz vertex = false \/ (wf_element vertex /\ num_rows vertex = 0%nat) ->
  raised (localize vertex mode ms b) = true.
Proof.
  intros Hbad.
  destruct (has_xyz vertex) eqn:Hxyz.
  - destruct Hbad as [Hbad|[Hwf Hn]]; [discriminate|].
    rewrite (localize_empty vertex mode ms b); [reflexivity| |].
    + apply required_subseteq. apply has_xyz_true in Hxyz
        as (cx & cy & cz & Hx & Hy & Hz).
      repeat split; eapply get_field_Some_name; eassumption.
    + apply List.Forall_forall. intros c Hc.
      rewrite (wf_col_len vertex c Hwf Hc). exact Hn.
  - rewrite (localize_missing vertex mode ms b); [reflexivity|].
    apply has_xyz_false_not_required. exact Hxyz.
Qed.

Section MainBadInput.
Variable abspath splitext_root basename dirname : string -> string.
Variable path_join : string -> string -> string.

(** X5: when the output is not refused and the input is not a readable
    PLY, or has no vertex element, or its vertex element lacks one of x,
    y, z or has no record, [main] ends with status 1 and the file system
    is as it was. *)
Theorem main_rejects_bad_input (args : Namespace) (fs : filesystem) :
  negb (args_force args) &&
    path_exists fs (output_of splitext_root basename dirname path_join args) =
    false ->
  (forall text elements,
     fs !! args_input args = Some (PlyFile text elements) ->
     forall vertex,
       get_element elements "vertex" = Ok vertex ->
       has_xyz vertex = false \/
       (wf_element vertex /\ num_rows vertex = 0%nat)) ->
  main abspath splitext_root basename dirname path_join args fs = (1, fs).
Proof.
  intros Hfree Hbad. unfold main. rewrite Hfree.
  unfold convert_ply_to_local, PlyData_read.
  destruct (fs !! args_input args) as [[text elements|od|las|]|] eqn:Hin;
    cbn [mbind result_bind]; try reflexivity.
  destruct (get_element elements "vertex") as [vertex|e] eqn:Hv;
    cbn [mbind result_bind]; [|reflexivity].
  pose proof (localize_bad_input vertex (args_mode args)
                (manual_shift_arg (args_manual_shift args))
                (args_auto_base args) (Hbad text elements eq_refl vertex Hv))
    as Hr.
  destruct (localize vertex (args_mode args)
              (manual_shift_arg (args_manual_shift args))
              (args_auto_base args)) as [[[? ?] ?]|e]; [discriminate|].
  reflexivity.
Qed.
End MainBadInput.

Lemma main_rejects_bad_input_witness :
  main (fun p => p) (fun p => p) (fun p => p) (fun _ => ""%string)
    (fun d f => (d ++ "/" ++ f)%string)
    (MkNamespace "missing.ply" (Some "out.ply"%string) "auto" None
       Sample.base1000 false false)
    (Sample.fs_with Sample.vertex1) =
  (1, Sample.fs_with Sample.vertex1).
Proof.
  apply main_rejects_bad_input.
  - vm_compute. reflexivity.
  - intros text elements Hin. exfalso.
    unfold Sample.fs_with in Hin.
    apply lookup_singleton_Some in Hin as [Hk _]. discriminate.
Defined.

(** ** The two scripts in sequence *)





(* ===================================================================== *)
(** * 16. Shifts that lose nothing: whole-number bases, the zero shift *)
(* ===================================================================== *)

(** ** Products that need no rounding *)

(** A rounded mantissa within half a unit of a multiple of the unit is
    that multiple. *)
Lemma round_multiple_exact m'' e'' ez k V :
  0 <= k -> ez + k <= e'' ->
  2 * Z.abs (m'' * 2 ^ (e'' - ez) - V) <= 2 ^ k ->
  (2 ^ k | V) ->
  m'' * 2 ^ (e'' - ez) = V.
Proof.
  intros Hk Hle Herr [v ->].
  assert (P : 0 < 2 ^ k) by (apply Z.pow_pos_nonneg; lia).
  assert (E : 2 ^ (e'' - ez) = 2 ^ (e'' - ez - k) * 2 ^ k)
    by (rewrite <- Z.pow_add_r by lia; f_equal; lia).
  rewrite E in *.
  replace (m'' * (2 ^ (e'' - ez - k) * 2 ^ k) - v * 2 ^ k)
    with ((m'' * 2 ^ (e'' - ez - k) - v) * 2 ^ k) in Herr by ring.
  rewrite Z.abs_mul, (Z.abs_eq (2 ^ k)) in Herr by lia.
  assert (Z.abs (m'' * 2 ^ (e'' - ez - k) - v) = 0) by nia.
  nia.
Qed.

Lemma Zval_int_neg mz ez J :
  ez < 0 -> (Zval mz ez == inject_Z J)%Q -> mz = J * 2 ^ (- ez).
Proof.
  intros He E. unfold Zval in E.
  apply inject_Z_injective.
  rewrite inject_Z_mult, pow2_inject by lia.
  rewrite <- E. rewrite <- Qmult_assoc, <- pow2_add.
  replace (ez + - ez) with 0 by lia. change (2 ^ 0)%Q with 1%Q. ring.
Qed.

Lemma Zval_int_nonneg mz ez J :
  0 <= ez -> (Zval mz ez == inject_Z J)%Q -> J = mz * 2 ^ ez.
Proof.
  intros He E. unfold Zval in E.
  apply inject_Z_injective.
  rewrite inject_Z_mult, pow2_inject by lia. symmetry. exact E.
Qed.

(** The unit of the rounding divides a mantissa whose value is a whole
    number below [2^53]. *)
Lemma whole_number_unit mz ez J :
  0 < mz -> (Zval mz ez == inject_Z J)%Q -> J < 2 ^ 53 ->
  let k := Z.max (SpecFloat.fexp F64.prec F64.emax (Zdigits2 mz + ez) - ez) 0 in
  (2 ^ k | mz).
Proof.
  intros Hmz E HJ k.
  assert (P53 : 0 < 2 ^ 53) by reflexivity.
  destruct (Z_lt_le_dec ez 0) as [Hneg|Hnn].
  - pose proof (Zval_int_neg mz ez J Hneg E) as Hm.
    assert (PJ : 0 < 2 ^ (- ez)) by (apply Z.pow_pos_nonneg; lia).
    assert (HJpos : 0 < J) by nia.
    assert (Hd : Zdigits2 mz = Zdigits2 J + - ez)
      by (rewrite Hm; apply Zdigits2_mul_pow; lia).
    assert (HdJ : Zdigits2 J <= 53) by (apply Zdigits2_le_pow; lia).
    assert (Hk : 0 <= k <= - ez).
    { subst k. unfold SpecFloat.fexp, SpecFloat.emin, F64.prec, F64.emax. lia. }
    exists (J * 2 ^ (- ez - k)).
    rewrite Hm, <- Z.mul_assoc, <- Z.pow_add_r by lia.
    do 2 f_equal. lia.
  - pose proof (Zval_int_nonneg mz ez J Hnn E) as HJeq.
    assert (Pe : 0 < 2 ^ ez) by (apply Z.pow_pos_nonneg; lia).
    assert (Hd : Zdigits2 J = Zdigits2 mz + ez)
      by (rewrite HJeq; apply Zdigits2_mul_pow; lia).
    assert (HdJ : Zdigits2 J <= 53) by (apply Zdigits2_le_pow; nia).
    assert (Hk : k = 0).
    { subst k. unfold SpecFloat.fexp, SpecFloat.emin, F64.prec, F64.emax. lia. }
    rewrite Hk. exists mz. change (2 ^ 0) with 1. lia.
Qed.

(** A float64 product whose exact value is a whole number below [2^53]
    in magnitude is computed without rounding. *)
Lemma mul_whole_exact x y (I : Z) :
  is_finite x = true -> is_finite y = true ->
  is_finite (F64.mul x y) = true ->
  (SF2Q x * SF2Q y == inject_Z I)%Q -> Z.abs I < 2 ^ 53 ->
  (SF2Q (F64.mul x y) == inject_Z I)%Q.
Proof.
  destruct x as [sx|sx| |sx mx ex], y as [sy|sy| |sy my ey];
    try discriminate; intros _ _ Hfin HI Hlt;
    unfold F64.mul in *; cbn [SFmul] in Hfin |- *;
    try (rewrite <- HI; cbn [SF2Q]; ring).
  destruct (binary_round_aux_spec F64.prec F64.emax eq_refl (xorb sx sy) 1
              (Zpos (mx * my)) (Zpos (mx * my)) (ex + ey) loc_Exact
              ltac:(lia) (shr_window_exact (Zpos (mx * my)) ltac:(lia)))
    as (m'' & e'' & Hr & Hnn & Hle & Herr & _).
  rewrite Hr in Hfin |- *.
  rewrite (SF2Q_finish F64.prec F64.emax _ m'' e'' (proj1 Hnn) Hfin).
  set (mz := Zpos (mx * my)) in *. set (ez := ex + ey) in *.
  set (s := xorb sx sy) in *.
  assert (EM : (SF2Q (S754_finite sx mx ex) * SF2Q (S754_finite sy my ey) ==
                Qsign s * Zval mz ez)%Q).
  { rewrite !SF2Q_finite, !Zval_cond_Zopp. unfold s. rewrite Qsign_xorb.
    unfold Zval, mz, ez. rewrite Pos2Z.inj_mul, inject_Z_mult, pow2_add. ring. }
  rewrite EM in HI.
  assert (EJ : (Zval mz ez == inject_Z (cond_Zopp s I))%Q).
  { rewrite inject_cond_Zopp, <- HI. destruct s; unfold Qsign; ring. }
  assert (HJ : cond_Zopp s I < 2 ^ 53) by (destruct s; simpl; lia).
  pose proof (whole_number_unit mz ez _ ltac:(subst mz; lia) EJ HJ) as Hdiv.
  cbv zeta in Hdiv.
  rewrite !Z.mul_1_l in Herr.
  set (k := Z.max (SpecFloat.fexp F64.prec F64.emax (Zdigits2 mz + ez) - ez) 0)
    in *.
  assert (Hk : 0 <= k) by (subst k; lia).
  pose proof (round_multiple_exact m'' e'' ez k mz Hk ltac:(lia) Herr Hdiv)
    as Hex.
  assert (Ev : (Zval m'' e'' == Zval mz ez)%Q).
  { rewrite <- Hex. rewrite Zval_shift by lia.
    replace (ez + (e'' - ez)) with e'' by lia. reflexivity. }
  rewrite Ev. exact HI.
Qed.

(** X8: when the base is a whole number [B] (as the default 1000) and
    [N * B] is below [2^53] in magnitude, [N] being the integer part of
    the float64 quotient [mean / base], a finite auto shift is exactly
    [N * B]: the product is not rounded, so the shift is a whole number
    and an integer multiple of the base. *)
Theorem auto_shift_is_whole_multiple
    (arr : list spec_float) (base s : spec_float) (B : Z) :
  _floor_base arr base = Ok s ->
  is_finite s = true ->
  (SF2Q base == inject_Z B)%Q ->
  let N := Qfloor (SF2Q (F64.div (np_mean arr) base)) in
  Z.abs (N * B) < 2 ^ 53 ->
  0 < B /\
  (SF2Q s == inject_Z (N * B))%Q /\
  (SF2Q s == inject_Z N * SF2Q base)%Q.
Proof.
  unfold _floor_base. destruct (F64.leb base F64.zero) eqn:Hleb; [discriminate|].
  intros [= <-] Hs HB. cbv zeta. intros Hlt.
  set (q := F64.div (np_mean arr) base) in *.
  set (N := Qfloor (SF2Q q)) in *.
  destruct (mul_finite_inv _ _ Hs) as [Hn Hb].
  pose proof (np_floor_finite_inv _ Hn) as Hq.
  destruct (leb_zero_false_pos base Hb Hleb) as [Hpos _].
  destruct (np_floor_correct q Hq
              (SFdiv_mantissa_fits F64.prec F64.emax eq_refl (np_mean arr) base))
    as [_ Hfl].
  fold N in Hfl.
  assert (HI : (SF2Q (np_floor q) * SF2Q base == inject_Z (N * B))%Q)
    by (rewrite Hfl, HB, inject_Z_mult; reflexivity).
  pose proof (mul_whole_exact (np_floor q) base (N * B) Hn Hb Hs HI Hlt) as Hex.
  split.
  - rewrite HB in Hpos. change 0%Q with (inject_Z 0) in Hpos.
    rewrite <- Zlt_Qlt in Hpos. exact Hpos.
  - split; [exact Hex|]. rewrite Hex, HB, inject_Z_mult. reflexivity.
Qed.

Lemma auto_shift_is_whole_multiple_witness :
  (SF2Q (F64.of_Z 407000) == inject_Z (407 * 1000))%Q /\
  _floor_base [SampleAuto.x407] Sample.base1000 = Ok (F64.of_Z 407000).
Proof.
  assert (Hrun : _floor_base [SampleAuto.x407] Sample.base1000 =
                 Ok (F64.of_Z 407000)) by (vm_compute; reflexivity).
  split; [|exact Hrun].
  destruct (auto_shift_is_whole_multiple [SampleAuto.x407] Sample.base1000
              (F64.of_Z 407000) 1000 Hrun) as (_ & Hex & _).
  - reflexivity.
  - vm_compute. reflexivity.
  - vm_compute. reflexivity.
  - exact Hex.
Defined.

(** ** Rounding a number that is already in the format *)

Lemma valid_finite_inv prec emax s M E :
  0 < prec ->
  valid_binary prec emax (S754_finite s M E) = true ->
  SpecFloat.fexp prec emax (Zdigits2 (Zpos M) + E) = E /\
  E <= emax - prec /\ Zpos M < 2 ^ prec.
Proof.
  intros Hprec. cbn [valid_binary]. unfold bounded, canonical_mantissa.
  intros H. apply andb_prop in H as [Hc Hb].
  apply Z.eqb_eq in Hc. apply Z.leb_le in Hb.
  change (Zpos (digits2_pos M)) with (Zdigits2 (Zpos M)) in Hc.
  split; [exact Hc|]. split; [exact Hb|].
  assert (Hd : Zdigits2 (Zpos M) <= prec)
    by (unfold SpecFloat.fexp in Hc; lia).
  pose proof (Zdigits2_bounds (Zpos M) ltac:(lia)) as [_ Hhi].
  apply Z.lt_le_trans with (2 ^ Zdigits2 (Zpos M)); [exact Hhi|].
  apply Z.pow_le_mono_r; lia.
Qed.

Section Representable.
Variable prec emax : Z.
Hypothesis Hprec : 0 < prec.

(** [binary_round] returns a valid float of the format unchanged when it
    is given with a longer mantissa and a smaller exponent. *)
Lemma binary_round_representable s m e M E :
  e <= E -> Zpos m = Zpos M * 2 ^ (E - e) ->
  valid_binary prec emax (S754_finite s M E) = true ->
  binary_round prec emax s m e = S754_finite s M E.
Proof.
  intros HeE Hm Hvalid.
  destruct (valid_finite_inv prec emax s M E Hprec Hvalid) as (Hcan & Hb & HM).
  destruct (binary_round_spec prec emax Hprec s m e)
    as (mz & ez & m'' & e'' & Hmz & Hez & Hmzeq & Hr & Hnn & Hexp & Herr &
        Hfz & _).
  assert (P1 : 0 < 2 ^ (E - e)) by (apply Z.pow_pos_nonneg; lia).
  assert (P2 : 0 < 2 ^ (e - ez)) by (apply Z.pow_pos_nonneg; lia).
  assert (P3 : 0 < 2 ^ (E - ez)) by (apply Z.pow_pos_nonneg; lia).
  assert (Hsplit : 2 ^ (E - ez) = 2 ^ (E - e) * 2 ^ (e - ez))
    by (rewrite <- Z.pow_add_r by lia; f_equal; lia).
  assert (HmzM : mz = Zpos M * 2 ^ (E - ez)).
  { rewrite Hmzeq, Hm, Hsplit. ring. }
  assert (Hd : Zdigits2 mz + ez = Zdigits2 (Zpos M) + E).
  { rewrite HmzM, Zdigits2_mul_pow by lia. lia. }
  rewrite Hd, Hcan in Hexp, Herr, Hfz.
  rewrite Z.max_l in Herr by lia.
  assert (Hdiv : (2 ^ (E - ez) | mz)) by (exists (Zpos M); exact HmzM).
  rewrite Hr. unfold finish.
  destruct Hexp as [He''|[He'' Hm'']].
  - pose proof (round_multiple_exact m'' e'' ez (E - ez) mz ltac:(lia)
                  ltac:(lia) Herr Hdiv) as Hex.
    rewrite He'' in Hex |- *.
    assert (Em : m'' = Zpos M) by nia.
    rewrite Em. rewrite (proj2 (Z.leb_le _ _) Hb). reflexivity.
  - exfalso.
    pose proof (round_multiple_exact m'' e'' ez (E - ez) mz ltac:(lia)
                  ltac:(lia) Herr Hdiv) as Hex.
    rewrite He'' in Hex.
    replace (E + 1 - ez) with (Z.succ (E - ez)) in Hex by lia.
    rewrite Z.pow_succ_r in Hex by lia.
    assert (Hp : 2 ^ prec = 2 * 2 ^ (prec - 1))
      by (rewrite <- Z.pow_succ_r by lia; f_equal; lia).
    nia.
Qed.
End Representable.

(** float32 to float64 and back is the identity. *)
Lemma f32_round_trip v :
  F32.valid v = true -> F32.of_f64 (F32.to_f64 v) = v.
Proof.
  destruct v as [s0|s0| |s m e]; try reflexivity. intros Hvalid.
  pose proof Hvalid as Hv.
  apply (valid_finite_inv F32.prec F32.emax s m e eq_refl) in Hv
    as (Hcan & Hb & HM).
  unfold F32.to_f64.
  destruct (binary_round_spec F64.prec F64.emax eq_refl s m e)
    as (mz & ez & m'' & e'' & Hmz & Hez & Hmzeq & Hr & Hnn & _ & _ & _ & Hex).
  assert (Hfe : SpecFloat.fexp F64.prec F64.emax (Zdigits2 (Zpos m) + e) <= e).
  { unfold SpecFloat.fexp, SpecFloat.emin, F32.prec, F32.emax, F64.prec,
      F64.emax in *. lia. }
  destruct (Hex Hfe) as (-> & -> & Hezeq).
  rewrite Hr. unfold finish.
  destruct mz as [|mzp|mzp]; try lia.
  assert (Hle : (ez <=? F64.emax - F64.prec) = true).
  { apply Z.leb_le. unfold F32.prec, F32.emax, F64.prec, F64.emax in *. lia. }
  rewrite Hle. unfold F32.of_f64.
  apply (binary_round_representable F32.prec F32.emax eq_refl s mzp ez m e);
    [exact Hez| |exact Hvalid].
  rewrite Hmzeq. reflexivity.
Qed.

(** ** The zero shift *)

Lemma sub_zero_r x : F64.sub x F64.zero = x.
Proof. destruct x as [[]|[]| |]; reflexivity. Qed.

Lemma sub_shift_zero p : sub_shift vec3_zero p = p.
Proof.
  destruct p as [a b c]. unfold sub_shift, vec3_zero. cbn [vx vy vz].
  rewrite !sub_zero_r. reflexivity.
Qed.

Lemma map_axes_vstack_T x : forall y z,
  length y = length x -> length z = length x ->
  map vx (vstack_T x y z) = x /\ map vy (vstack_T x y z) = y /\
  map vz (vstack_T x y z) = z.
Proof.
  induction x as [|a x IH]; intros [|b y] [|c z]; simpl; intros Hy Hz;
    try discriminate; auto.
  destruct (IH y z) as (Ex & Ey & Ez); try lia.
  rewrite Ex, Ey, Ez. auto.
Qed.

Lemma map_f32_round_trip d :
  Forall (fun v => F32.valid v = true) d ->
  map (fun v => F32.of_f64 (F32.to_f64 v)) d = d.
Proof.
  induction 1 as [|v d Hv _ IH]; simpl; [reflexivity|].
  rewrite f32_round_trip by exact Hv. rewrite IH. reflexivity.
Qed.

Lemma get_field_NoDup (v : ply_element) n c :
  List.NoDup (prop_names_of v) -> In (n, c) v -> get_field v n = Some c.
Proof.
  induction v as [|[n0 c0] tl IH]; simpl; intros Hnd Hin; [contradiction|].
  apply List.NoDup_cons_iff in Hnd as [Hnot Hnd].
  destruct Hin as [[= -> ->]|Hin].
  - rewrite String.eqb_refl. reflexivity.
  - destruct (String.eqb_spec n0 n) as [->|Hne]; [|auto].
    exfalso. apply Hnot. apply in_map_iff. exists (n, c). auto.
Qed.

(** X9: the zero shift is the identity on a float32 cloud.  In manual
    mode with the shift (0, 0, 0), a well-formed, non-empty vertex element
    whose x, y, z are float32 columns comes out as it went in: float32 to
    float64, minus zero, and back to float32 returns every coordinate bit
    for bit, and the other fields are copied. *)
Theorem zero_shift_keeps_float32_cloud
    (vertex : ply_element) (auto_base : spec_float)
    (dx dy dz : list spec_float) :
  wf_element vertex -> num_rows vertex <> 0%nat ->
  get_field vertex "x" = Some (ColF4 dx) ->
  get_field vertex "y" = Some (ColF4 dy) ->
  get_field vertex "z" = Some (ColF4 dz) ->
  Forall (fun v => F32.valid v = true) (dx ++ dy ++ dz) ->
  exists locals,
    localize vertex "manual" (Some [F64.zero; F64.zero; F64.zero]) auto_base =
    Ok (vertex, vec3_zero, locals).
Proof.
  intros Hwf Hn Hx Hy Hz Hvalid.
  apply Forall_app in Hvalid as [Vx Hvalid].
  apply Forall_app in Hvalid as [Vy Vz].
  set (pg := vstack_T (astype_float64 (ColF4 dx)) (astype_float64 (ColF4 dy))
                      (astype_float64 (ColF4 dz))).
  destruct (field_float64_wf _ _ _ Hwf Hx) as [_ Lx].
  destruct (field_float64_wf _ _ _ Hwf Hy) as [_ Ly].
  destruct (field_float64_wf _ _ _ Hwf Hz) as [_ Lz].
  assert (Hlen : length pg = num_rows vertex)
    by (unfold pg; rewrite vstack_T_length; congruence).
  assert (Hpg : pg <> []) by (intros E; rewrite E in Hlen; simpl in Hlen; congruence).
  assert (Hshift : compute_shift (astype_float64 (ColF4 dx))
                     (astype_float64 (ColF4 dy)) (astype_float64 (ColF4 dz)) pg
                     "manual" (Some [F64.zero; F64.zero; F64.zero]) auto_base =
                   Ok vec3_zero) by reflexivity.
  pose proof (localize_ok vertex "manual" (Some [F64.zero; F64.zero; F64.zero])
                auto_base (ColF4 dx) (ColF4 dy) (ColF4 dz) vec3_zero
                Hx Hy Hz Hpg Hshift) as Hrun.
  fold pg in Hrun.
  assert (Hloc : map (sub_shift vec3_zero) pg = pg).
  { rewrite <- (map_id pg) at 2. apply map_ext. apply sub_shift_zero. }
  rewrite Hloc in Hrun.
  exists pg. rewrite Hrun.
  enough (Hb : build_vertex_array vertex pg = vertex) by (rewrite Hb; reflexivity).
  (* every column of the output is the input column *)
  destruct (map_axes_vstack_T (astype_float64 (ColF4 dx))
              (astype_float64 (ColF4 dy)) (astype_float64 (ColF4 dz)))
    as (Ex & Ey & Ez); [congruence|congruence|].
  fold pg in Ex, Ey, Ez. cbn [astype_float64] in Ex, Ey, Ez.
  rewrite build_vertex_array_eq. unfold prop_names_of. rewrite map_map.
  rewrite <- (map_id vertex) at 2. apply map_ext_in.
  intros [n c] Hin. cbn [fst]. f_equal.
  pose proof (get_field_NoDup vertex n c (proj1 Hwf) Hin) as Hget.
  unfold stored_column.
  destruct (String.eqb_spec n "x") as [->|Nx].
  { rewrite Hx in Hget. injection Hget as <-. f_equal.
    rewrite <- (map_map vx F32.of_f64), Ex, map_map.
    apply map_f32_round_trip. exact Vx. }
  destruct (String.eqb_spec n "y") as [->|Ny].
  { rewrite Hy in Hget. injection Hget as <-. f_equal.
    rewrite <- (map_map vy F32.of_f64), Ey, map_map.
    apply map_f32_round_trip. exact Vy. }
  destruct (String.eqb_spec n "z") as [->|Nz].
  { rewrite Hz in Hget. injection Hget as <-. f_equal.
    rewrite <- (map_map vz F32.of_f64), Ez, map_map.
    apply map_f32_round_trip. exact Vz. }
  rewrite Hget. reflexivity.
Qed.

Lemma zero_shift_keeps_float32_cloud_witness :
  exists locals,
    localize ScenarioInput.vertex "manual"
      (Some [F64.zero; F64.zero; F64.zero]) Sample.base1000 =
    Ok (ScenarioInput.vertex, vec3_zero, locals).
Proof.
  apply (zero_shift_keeps_float32_cloud ScenarioInput.vertex Sample.base1000
           [F64.zero] [F64.zero] [F64.zero]).
  - solve_wf_element.
  - simpl. discriminate.
  - reflexivity.
  - reflexivity.
  - reflexivity.
  - repeat constructor.
Defined.

(* ===================================================================== *)
(** * 17. local_ply_2_ecef_las.py: command line, colours, rotation *)
(* ===================================================================== *)

(** ** The command line of the converter *)


(** ** Colour channels *)

Lemma rgb_channel_inv vertex preserve_rgb color r :
  rgb_channel vertex preserve_rgb color = Ok r ->
  (is_Some r <-> preserve_rgb = true /\ is_Some (get_field vertex color)) /\
  (forall l, r = Some l ->
     exists val, get_field vertex color = Some val /\
                 normalize_channel val = Ok l).
Proof.
  unfold rgb_channel. destruct preserve_rgb.
  - destruct (get_field vertex color) as [val|] eqn:E.
    + destruct (normalize_channel val) as [v|e] eqn:En;
        cbn [mbind result_bind]; intros [= <-].
      split.
      * split; [intros _; split; [reflexivity|eauto]|eauto].
      * intros l [= <-]. eauto.
    + intros [= <-]. split.
      * split; [intros [? ?]; discriminate|intros [_ [? ?]]; discriminate].
      * discriminate.
  - intros [= <-]. split.
    + split; [intros [? ?]; discriminate|intros [? _]; discriminate].
    + discriminate.
Qed.

Lemma ecef_las_of_vertex_inv np_sin np_cos vertex lon lat h preserve_rgb las :
  ecef_las_of_vertex np_sin np_cos vertex lon lat h preserve_rgb = Ok las ->
  rgb_channel vertex preserve_rgb "red" = Ok (las_red las) /\
  rgb_channel vertex preserve_rgb "green" = Ok (las_green las) /\
  rgb_channel vertex preserve_rgb "blue" = Ok (las_blue las).
Proof.
  unfold ecef_las_of_vertex.
  destruct (field_float64 vertex "x") as [east|]; [|discriminate].
  destruct (field_float64 vertex "y") as [north|]; [|discriminate].
  destruct (field_float64 vertex "z") as [up|]; [|discriminate].
  cbn [mbind result_bind].
  destruct (enu_to_ecef np_sin np_cos lon lat h east north up)
    as [|xs [|ys [|zs [|]]]]; try discriminate.
  destruct (check_reducible xs); [|discriminate]. cbn [mbind result_bind].
  destruct (rgb_channel vertex preserve_rgb "red") as [r|]; [|discriminate].
  destruct (rgb_channel vertex preserve_rgb "green") as [g|]; [|discriminate].
  destruct (rgb_channel vertex preserve_rgb "blue") as [b|]; [|discriminate].
  cbn [mbind result_bind]. intros [= <-]. cbn. auto.
Qed.

(** X11: a colour channel is set on the LAS exactly when [preserve_rgb]
    is true and the vertex element has the property of that name; every
    channel that is set has one value per record. *)
Theorem colour_channels_follow_ply
    (np_sin np_cos : spec_float -> spec_float) (vertex : ply_element)
    (origin_lon origin_lat origin_height : spec_float) (preserve_rgb : bool)
    (las : las_data) :
  wf_element vertex ->
  ecef_las_of_vertex np_sin np_cos vertex origin_lon origin_lat origin_height
    preserve_rgb = Ok las ->
  (is_Some (las_red las) <->
   preserve_rgb = true /\ is_Some (get_field vertex "red")) /\
  (is_Some (las_green las) <->
   preserve_rgb = true /\ is_Some (get_field vertex "green")) /\
  (is_Some (las_blue las) <->
   preserve_rgb = true /\ is_Some (get_field vertex "blue")) /\
  (forall l,
     las_red las = Some l \/ las_green las = Some l \/ las_blue las = Some l ->
     length l = num_rows vertex).
Proof.
  intros Hwf Hrun.
  apply ecef_las_of_vertex_inv in Hrun as (Hr & Hg & Hb).
  apply rgb_channel_inv in Hr as [Pr Lr].
  apply rgb_channel_inv in Hg as [Pg Lg].
  apply rgb_channel_inv in Hb as [Pb Lb].
  repeat (split; [assumption|]).
  intros l [H|[H|H]];
    [apply Lr in H|apply Lg in H|apply Lb in H];
    destruct H as (val & Hval & Hn);
    rewrite (normalize_channel_length _ _ Hn);
    (apply wf_col_len; [assumption|eapply get_field_In; eassumption]).
Qed.

Lemma colour_channels_follow_ply_witness :
  exists las,
    ecef_las_of_vertex Scenario.libm_sin Scenario.libm_cos Sample.vertex1
      Scenario.lon Scenario.lat Scenario.height true = Ok las /\
    is_Some (las_red las) /\ ~ is_Some (las_green las) /\
    las_red las = Some [200].
Proof.
  destruct (ecef_las_of_vertex Scenario.libm_sin Scenario.libm_cos
              Sample.vertex1 Scenario.lon Scenario.lat Scenario.height true)
    as [las|e] eqn:Hrun; [|vm_compute in Hrun; discriminate].
  assert (Hwf : wf_element Sample.vertex1) by solve_wf_element.
  destruct (colour_channels_follow_ply Scenario.libm_sin Scenario.libm_cos
              Sample.vertex1 Scenario.lon Scenario.lat Scenario.height true las
              Hwf Hrun) as (Hr & Hg & _ & _).
  exists las. split; [reflexivity|].
  split; [apply Hr; split; [reflexivity|simpl; eauto]|].
  split.
  - intros H. apply Hg in H as [_ [c Hc]]. discriminate.
  - vm_compute in Hrun. injection Hrun as <-. reflexivity.
Defined.

(** ** The first row of the rotation *)

Lemma same_float_refl x : same_float x x.
Proof. left. reflexivity. Qed.

Lemma same_float_sym x y : same_float x y -> same_float y x.
Proof. intros [->|[? ?]]; [left; reflexivity|right; auto]. Qed.

Lemma same_float_trans x y z :
  same_float x y -> same_float y z -> same_float x z.
Proof.
  intros [->|[Hx Hy]] [->|[Hy' Hz]]; unfold same_float; auto.
Qed.

Lemma add_same_float_r x a b :
  same_float a b -> same_float (F64.add x a) (F64.add x b).
Proof.
  intros [->|[Ha Hb]]; [apply same_float_refl|].
  eapply same_float_trans; [apply add_zero_r; assumption|].
  apply same_float_sym, add_zero_r; assumption.
Qed.

Lemma mul_zero_finite u :
  is_finite u = true -> is_zero (F64.mul F64.zero u) = true.
Proof. destruct u; simpl; intros; try discriminate; reflexivity. Qed.

Section FirstRow.
Variable np_sin np_cos : spec_float -> spec_float.
Variable lon lat h : spec_float.

Lemma ecef_x_same_up e n u u' :
  is_finite u = true -> is_finite u' = true ->
  same_float (Spec.ecef_x np_sin np_cos lon lat h (Vec3 e n u))
             (Spec.ecef_x np_sin np_cos lon lat h (Vec3 e n u')).
Proof.
  intros Hu Hu'. unfold Spec.ecef_x, Spec.row_times, Spec.east_axis.
  cbn [vx vy vz]. apply add_same_float_r.
  eapply same_float_trans; [apply add_zero_r, mul_zero_finite; assumption|].
  apply same_float_sym, add_zero_r, mul_zero_finite; assumption.
Qed.

Lemma map_ecef_x_same_up east : forall north up up',
  length north = length east -> length up = length east ->
  length up' = length east ->
  Forall (fun u => is_finite u = true) up ->
  Forall (fun u => is_finite u = true) up' ->
  List.Forall2 same_float
    (map (Spec.ecef_x np_sin np_cos lon lat h) (vstack_T east north up))
    (map (Spec.ecef_x np_sin np_cos lon lat h) (vstack_T east north up')).
Proof.
  induction east as [|e east IH]; intros [|n north] [|u up] [|u' up'];
    simpl; intros Ln Lu Lu' Fu Fu'; try discriminate; try constructor.
  - apply ecef_x_same_up.
    + apply (List.Forall_inv Fu).
    + apply (List.Forall_inv Fu').
  - apply IH; try lia.
    + apply (List.Forall_inv_tail Fu).
    + apply (List.Forall_inv_tail Fu').
Qed.

(** X12: the first row of [R] is [[-sin_lon, cos_lon, 0]], so the ECEF x
    coordinates of the output do not depend on the up coordinates of the
    points: two inputs with the same east and north columns and any
    finite up columns give the same x column, up to the sign of a
    zero. *)
Theorem ecef_x_ignores_up (east north up up' : list spec_float) :
  length north = length east -> length up = length east ->
  length up' = length east ->
  Forall (fun u => is_finite u = true) up ->
  Forall (fun u => is_finite u = true) up' ->
  List.Forall2 same_float
    (nth 0 (enu_to_ecef np_sin np_cos lon lat h east north up) [])
    (nth 0 (enu_to_ecef np_sin np_cos lon lat h east north up') []).
Proof.
  intros Ln Lu Lu' Fu Fu'.
  rewrite !enu_to_ecef_rows by assumption. cbn [nth].
  apply map_ecef_x_same_up; assumption.
Qed.
End FirstRow.

Lemma ecef_x_ignores_up_witness :
  List.Forall2 same_float
    (nth 0 (enu_to_ecef Scenario.libm_sin Scenario.libm_cos Scenario.lon
              Scenario.lat Scenario.height [F64.of_Z 3] [F64.of_Z 4]
              [F64.of_Z 0]) [])
    (nth 0 (enu_to_ecef Scenario.libm_sin Scenario.libm_cos Scenario.lon
              Scenario.lat Scenario.height [F64.of_Z 3] [F64.of_Z 4]
              [F64.of_Z 1000]) []).
Proof.
  apply ecef_x_ignores_up; try reflexivity; repeat constructor.
Defined.

(* ===================================================================== *)
(** * 18. tool_look_ply.py and tool_look_las.py *)
(* ===================================================================== *)

(** ** The viewers *)

Lemma col_index_ok c i :
  (i < col_len c)%nat -> exists v, col_index c i = Ok v.
Proof.
  intros Hi. unfold col_index.
  destruct c as [t d|d|d]; simpl in Hi;
    (destruct (nth_error d i) eqn:E;
     [eauto|apply nth_error_None in E; lia]).
Qed.

Lemma col_index_out c i :
  (col_len c <= i)%nat -> col_index c i = Raise IndexError.
Proof.
  intros Hi. unfold col_index.
  destruct c as [t d|d|d]; simpl in Hi;
    (destruct (nth_error d i) eqn:E; [|reflexivity];
     assert (i < length d)%nat by (apply nth_error_Some; congruence); lia).
Qed.

Lemma point_dict_ok arr names i :
  wf_element arr -> (i < num_rows arr)%nat ->
  (forall name, In name names -> In name (prop_names_of arr)) ->
  exists d, point_dict arr names i = Ok d /\ map fst d = names /\
    forall name v, In (name, v) d ->
      exists c, get_field arr name = Some c /\ col_index c i = Ok v.
Proof.
  intros Hwf Hi. induction names as [|name tl IH]; intros Hsub.
  - exists []. simpl. repeat split; auto. contradiction.
  - cbn [point_dict].
    destruct (get_field arr name) as [c|] eqn:E.
    2:{ apply get_field_None_name in E. exfalso. apply E, Hsub. left. reflexivity. }
    destruct (col_index_ok c i) as [v Hv].
    { rewrite (wf_col_len arr c Hwf); [assumption|].
      eapply get_field_In; eassumption. }
    destruct IH as (d & Hd & Hnames & Hvals).
    { intros n Hn. apply Hsub. right. exact Hn. }
    rewrite Hv, Hd. cbn [mbind result_bind].
    exists ((name, v) :: d). split; [reflexivity|]. split.
    + simpl. f_equal. exact Hnames.
    + intros n w [[= <- <-]|Hin]; [eauto|apply Hvals; exact Hin].
Qed.

Lemma point_dict_out arr i :
  wf_element arr -> arr <> [] -> (num_rows arr <= i)%nat ->
  point_dict arr (prop_names_of arr) i = Raise IndexError.
Proof.
  intros Hwf Hne Hi. destruct arr as [|[n c] tl]; [congruence|].
  cbn [prop_names_of map fst point_dict get_field].
  rewrite String.eqb_refl.
  rewrite col_index_out; [reflexivity|]. exact Hi.
Qed.

Lemma print_points_within arr k : forall a,
  wf_element arr -> (a + k <= num_rows arr)%nat ->
  exists ds, print_points arr (seq a k) = (map Point ds, Finished) /\
    length ds = k /\
    List.Forall2 (shows_record arr) (seq a k) ds.
Proof.
  induction k as [|k IH]; intros a Hwf Hk.
  - exists []. simpl. repeat split; constructor.
  - cbn [seq print_points].
    destruct (point_dict_ok arr (prop_names_of arr) a Hwf ltac:(lia)
                (fun _ H => H)) as (d & Hd & Hnames & Hvals).
    destruct (IH (S a) Hwf ltac:(lia)) as (ds & Hds & Hlen & Hall).
    rewrite Hd, Hds. exists (d :: ds). split; [reflexivity|].
    split; [simpl; congruence|]. constructor; [split; assumption|exact Hall].
Qed.

Lemma print_points_beyond arr k : forall a,
  wf_element arr -> arr <> [] ->
  (a <= num_rows arr)%nat -> (num_rows arr < a + k)%nat ->
  exists ds, print_points arr (seq a k) = (map Point ds, Uncaught IndexError) /\
    length ds = (num_rows arr - a)%nat /\
    List.Forall2 (shows_record arr) (seq a (num_rows arr - a)) ds.
Proof.
  induction k as [|k IH]; intros a Hwf Hne Ha Hk; [lia|].
  cbn [seq print_points].
  destruct (Nat.eq_dec a (num_rows arr)) as [->|Hlt].
  - rewrite point_dict_out by (assumption || lia).
    exists []. rewrite Nat.sub_diag. simpl. repeat split; constructor.
  - destruct (point_dict_ok arr (prop_names_of arr) a Hwf ltac:(lia)
                (fun _ H => H)) as (d & Hd & Hnames & Hvals).
    destruct (IH (S a) Hwf Hne ltac:(lia) ltac:(lia))
      as (ds & Hds & Hlen & Hall).
    rewrite Hd, Hds. exists (d :: ds). split; [reflexivity|].
    replace (num_rows arr - a)%nat with (S (num_rows arr - S a)) by lia.
    split; [simpl; congruence|]. cbn [seq].
    constructor; [split; assumption|exact Hall].
Qed.

(** X13: given a path to a readable PLY whose vertex element has at
    least one property, tool_look_ply.py prints the headings and the
    property names, then one line per record for the first five records;
    each line lists every property in header order with the values of
    that record.  With five records or more it finishes; with fewer it
    prints them all and ends in an uncaught IndexError. *)
Theorem tool_look_ply_needs_five_records
    (argv : list string) (fs : filesystem) (path : string) (text : bool)
    (elements : list (string * ply_element)) (vertex : ply_element) :
  nth_error argv 1 = Some path ->
  fs !! path = Some (PlyFile text elements) ->
  get_element elements "vertex" = Ok vertex ->
  wf_element vertex -> vertex <> [] ->
  exists ds,
    tool_look_ply argv fs =
      (AttributesHeading :: map AttributeName (prop_names_of vertex)
         ++ PointsHeading :: map Point ds,
       if (5 <=? num_rows vertex)%nat then Finished
       else Uncaught IndexError) /\
    length ds = Nat.min 5 (num_rows vertex) /\
    List.Forall2 (shows_record vertex) (seq 0 (length ds)) ds.
Proof.
  intros Hargv Hin Hv Hwf Hne. unfold tool_look_ply.
  assert (Hlen : (length argv <? 2)%nat = false).
  { assert (1 < length argv)%nat by (apply nth_error_Some; congruence).
    apply Nat.ltb_ge. lia. }
  rewrite Hlen.
  assert (Hpath : nth 1 argv ""%string = path)
    by (apply nth_error_nth; exact Hargv).
  rewrite Hpath. unfold PlyData_read. rewrite Hin.
  cbn [mbind result_bind]. rewrite Hv.
  destruct (Nat.leb_spec 5 (num_rows vertex)) as [H5|H5].
  - destruct (print_points_within vertex 5 0%nat Hwf ltac:(lia))
      as (ds & Hds & Hl & Hall).
    rewrite Hds. exists ds. split.
    + f_equal. cbn [app]. rewrite <- app_assoc. reflexivity.
    + split; [lia|]. rewrite Hl. exact Hall.
  - destruct (print_points_beyond vertex 5 0%nat Hwf Hne ltac:(lia) ltac:(lia))
      as (ds & Hds & Hl & Hall).
    rewrite Hds. exists ds. split.
    + f_equal. cbn [app]. rewrite <- app_assoc. reflexivity.
    + split; [lia|]. rewrite Hl. exact Hall.
Qed.

Lemma tool_look_ply_needs_five_records_witness :
  exists d,
    tool_look_ply ["tool_look_ply.py"; "in.ply"]%string
      (Sample.fs_with Sample.vertex1) =
    ([AttributesHeading; AttributeName "x"; AttributeName "y";
      AttributeName "red"; AttributeName "z"; PointsHeading; Point d],
     Uncaught IndexError).
Proof.
  assert (Hwf : wf_element Sample.vertex1) by solve_wf_element.
  destruct (tool_look_ply_needs_five_records
              ["tool_look_ply.py"; "in.ply"]%string
              (Sample.fs_with Sample.vertex1) "in.ply" true
              [("vertex"%string, Sample.vertex1)] Sample.vertex1
              eq_refl (lookup_singleton_eq _ _) eq_refl Hwf ltac:(discriminate))
    as (ds & Hrun & Hlen & _).
  destruct ds as [|d [|d' ds]]; try discriminate.
  exists d. exact Hrun.
Defined.

(** X14: the loop of tool_look_las.py prints
    [max(0, min(limit, number of points))] lines, one per record in
    order, each with every dimension and its value, and never indexes
    out of bounds: a negative [--limit] prints nothing. *)
Theorem las_viewer_prints_at_most_limit (limit : Z) (pts : ply_element) :
  wf_element pts ->
  exists ds,
    las_print_points limit pts = (map Point ds, Finished) /\
    Z.of_nat (length ds) = Z.max 0 (Z.min limit (Z.of_nat (num_rows pts))) /\
    List.Forall2 (shows_record pts) (seq 0 (length ds)) ds.
Proof.
  intros Hwf. unfold las_print_points.
  set (k := Z.to_nat (Z.min limit (Z.of_nat (num_rows pts)))).
  destruct (print_points_within pts k 0%nat Hwf ltac:(lia))
    as (ds & Hds & Hl & Hall).
  exists ds. split; [exact Hds|]. split; [lia|].
  rewrite Hl. exact Hall.
Qed.

Lemma las_viewer_prints_at_most_limit_witness :
  exists ds,
    las_print_points (-3) Sample.vertex1 = (map Point ds, Finished) /\
    length ds = 0%nat.
Proof.
  assert (Hwf : wf_element Sample.vertex1) by solve_wf_element.
  destruct (las_viewer_prints_at_most_limit (-3) Sample.vertex1 Hwf)
    as (ds & Hrun & Hlen & _).
  exists ds. split; [exact Hrun|].
  change (Z.max 0 (Z.min (-3) (Z.of_nat (num_rows Sample.vertex1)))) with 0 in Hlen.
  lia.
Defined.
